(** * Clobber: the game-state model and the alpha-beta search of [main.py]

    The development embeds the class [ClobberGame] of [src/main.py]:
    the board is a list of rows, indexed the way Python indexes lists
    (negative indices count from the end, anything else out of range
    raises [IndexError]); the methods that mutate [self] are functions
    returning the new object; the methods that can raise return an
    [outcome]. *)

From Stdlib Require Import ZArith Ascii String.
From stdpp Require Import base option list numbers sorting.

Local Open Scope Z_scope.

(** ** Python lists *)

Module PyList.

(** The position a Python index designates in a list of length
    [length l]: [Some] for [-len <= i < len], [None] where Python
    raises [IndexError]. *)
Definition position {A} (l : list A) (i : Z) : option nat :=
  let n := Z.of_nat (length l) in
  if decide (0 <= i < n) then Some (Z.to_nat i)
  else if decide (- n <= i < 0) then Some (Z.to_nat (n + i))
  else None.

(** [l[i]] *)
Definition getitem {A} (l : list A) (i : Z) : option A :=
  p ← position l i; l !! p.

(** [l[i] = x] *)
Definition setitem {A} (l : list A) (i : Z) (x : A) : option (list A) :=
  p ← position l i; Some (<[p := x]> l).

(** [range(n)] *)
Definition range (n : Z) : list Z := seqZ 0 n.

(** [l.count(x)] *)
Definition count {A} `{EqDecision A} (x : A) (l : list A) : Z :=
  Z.of_nat (length (filter (λ y, y = x) l)).

(** [sum(...)] over integers *)
Definition sum (l : list Z) : Z := foldl Z.add 0 l.

End PyList.

(** ** Results of computations that can raise *)

Inductive outcome (A : Type) : Type :=
| Ok (a : A)
| IndexError          (* an uncaught [IndexError] *)
| OutOfFuel.          (* the recursion bound of the model was reached *)
Arguments Ok {A} a.
Arguments IndexError {A}.
Arguments OutOfFuel {A}.

#[global] Instance outcome_ret : MRet outcome := λ A a, Ok a.
#[global] Instance outcome_bind : MBind outcome := λ A B f m,
  match m with
  | Ok a => f a
  | IndexError => IndexError
  | OutOfFuel => OutOfFuel
  end.

(** A subscript expression used where no handler is installed. *)
Definition subscript {A} (o : option A) : outcome A :=
  match o with Some a => Ok a | None => IndexError end.

(** [for x in l: acc = body x acc], stopping at the first exception. *)
Fixpoint for_each {A S} (l : list A) (body : A → S → outcome S) (acc : S)
  : outcome S :=
  match l with
  | [] => Ok acc
  | x :: l' => acc' ← body x acc; for_each l' body acc'
  end.

(** ** The values of the search: Python ints and [±math.inf] *)

Inductive value : Type :=
| NegInf
| Int (z : Z)
| PosInf.

#[global] Instance value_eq_dec : EqDecision value.
Proof. solve_decision. Defined.

(** [a <= b] *)
Definition vle (a b : value) : bool :=
  match a, b with
  | NegInf, _ => true
  | _, PosInf => true
  | Int x, Int y => bool_decide (x <= y)
  | _, _ => false
  end.

(** [a < b], [a > b] *)
Definition vlt (a b : value) : bool := negb (vle b a).
Definition vgt (a b : value) : bool := vlt b a.

(** [max(a, b)] and [min(a, b)]: the first argument wins ties. *)
Definition vmax (a b : value) : value := if vgt b a then b else a.
Definition vmin (a b : value) : value := if vlt b a then b else a.

(** ** The board *)

Inductive cell : Type :=
| BLACK    (* 'B' *)
| WHITE    (* 'W' *)
| EMPTY.   (* '.' *)

#[global] Instance cell_eq_dec : EqDecision cell.
Proof. solve_decision. Defined.

Definition coord : Type := Z * Z.
Definition move : Type := coord * coord.

(** Directions (up, down, left, right) *)
Definition DIRECTIONS : list (Z * Z) := [(-1, 0); (1, 0); (0, -1); (0, 1)].

Abbreviation grid := (list (list cell)).

(** [board[i][j]] *)
Definition get_cell (board : grid) (i j : Z) : option cell :=
  row ← PyList.getitem board i; PyList.getitem row j.

(** [board[i][j] = c]: the row object [board[i]] is updated in place. *)
Definition set_cell (board : grid) (i j : Z) (c : cell) : option grid :=
  row ← PyList.getitem board i;
  row' ← PyList.setitem row j c;
  PyList.setitem board i row'.

Record ClobberGame : Type := {
  rows : Z;
  cols : Z;
  board : grid;
  current_player : cell
}.

Definition with_board (g : ClobberGame) (b : grid) : ClobberGame :=
  {| rows := rows g; cols := cols g; board := b;
     current_player := current_player g |}.

(** What a call printed on the console, if anything. *)
Inductive report : Type :=
| Quiet
| Printed (msg : string).

Definition msg_invalid_move : string := "Invalid move. Please try again.".
Definition msg_not_yours : string :=
  "You cannot move a piece that doesn't belong to you.".
Definition msg_undo_out_of_bounds : string :=
  "Error: Attempted to undo a move that is out of bounds.".

(** ** The methods of [ClobberGame] *)

Definition init_board (rows cols : Z) : grid :=
  foldl (λ board i,
           board ++ [foldl (λ row j,
                              if decide ((i + j) mod 2 = 0)
                              then row ++ [BLACK]
                              else row ++ [WHITE])
                           [] (PyList.range cols)])
        [] (PyList.range rows).

(** [ClobberGame(rows, cols)] *)
Definition new_game (rows cols : Z) : ClobberGame :=
  {| rows := rows; cols := cols; board := init_board rows cols;
     current_player := BLACK |}.

Definition get_legal_moves (g : ClobberGame) (player : cell)
  : outcome (list move) :=
  for_each (PyList.range (rows g)) (λ i moves,
    for_each (PyList.range (cols g)) (λ j moves,
      c ← subscript (get_cell (board g) i j);
      if decide (c = player) then
        for_each DIRECTIONS (λ d moves,
          let ni := i + d.1 in
          let nj := j + d.2 in
          if decide (0 <= ni < rows g) then
            if decide (0 <= nj < cols g) then
              c' ← subscript (get_cell (board g) ni nj);
              if decide (c' ≠ player) then
                if decide (c' ≠ EMPTY) then Ok (moves ++ [((i, j), (ni, nj))])
                else Ok moves
              else Ok moves
            else Ok moves
          else Ok moves) moves
      else Ok moves) moves) [].

Definition switch_player (g : ClobberGame) : ClobberGame :=
  {| rows := rows g; cols := cols g; board := board g;
     current_player :=
       if decide (current_player g = BLACK) then WHITE else BLACK |}.

(** [make_move]: both handlers print and return, so the method never
    raises; the object it leaves behind is the one reached when the
    exception was thrown. *)
Definition make_move (g : ClobberGame) (mv : move) : ClobberGame * report :=
  let '((i, j), (ni, nj)) := mv in
  match get_cell (board g) i j with
  | None => (g, Printed msg_invalid_move)
  | Some c =>
    if decide (c ≠ current_player g) then (g, Printed msg_not_yours)
    else
      match set_cell (board g) ni nj c with
      | None => (g, Printed msg_invalid_move)
      | Some b1 =>
        match set_cell b1 i j EMPTY with
        | None => (with_board g b1, Printed msg_invalid_move)
        | Some b2 => (switch_player (with_board g b2), Quiet)
        end
      end
  end.

Definition undo_move (g : ClobberGame) (mv : move) : ClobberGame * report :=
  let '((i, j), (ni, nj)) := mv in
  match get_cell (board g) ni nj with
  | None => (g, Printed msg_undo_out_of_bounds)
  | Some c =>
    match set_cell (board g) i j c with
    | None => (g, Printed msg_undo_out_of_bounds)
    | Some b1 =>
      match get_cell b1 i j with
      | None => (with_board g b1, Printed msg_undo_out_of_bounds)
      | Some c1 =>
        match set_cell b1 ni nj (if decide (c1 = BLACK) then WHITE else BLACK) with
        | None => (with_board g b1, Printed msg_undo_out_of_bounds)
        | Some b2 => (switch_player (with_board g b2), Quiet)
        end
      end
    end
  end.

Definition is_terminal (g : ClobberGame) : outcome bool :=
  black_moves ← get_legal_moves g BLACK;
  match black_moves with
  | _ :: _ => Ok false
  | [] =>
    white_moves ← get_legal_moves g WHITE;
    Ok (match white_moves with [] => true | _ :: _ => false end)
  end.

Definition evaluate (g : ClobberGame) : Z :=
  let black_count := PyList.sum (PyList.count BLACK <$> board g) in
  let white_count := PyList.sum (PyList.count WHITE <$> board g) in
  if decide (current_player g = BLACK) then black_count - white_count
  else white_count - black_count.

(** ** The search

    [alpha_beta] recurses on [depth - 1] until [depth == 0] or the
    position is terminal; [fuel] bounds the number of nested calls. The
    loops run over the list [get_legal_moves] returned before the first
    iteration, and every iteration works on the one shared object. *)

Section Loops.

(** The recursive call [self.alpha_beta(depth, alpha, beta, maximizing_player)]. *)
Variable call :
  ClobberGame → Z → value → value → bool → outcome (value * ClobberGame).
Variable depth : Z.

Fixpoint max_loop (moves : list move) (g : ClobberGame)
    (max_eval alpha beta : value) : outcome (value * ClobberGame) :=
  match moves with
  | [] => Ok (max_eval, g)
  | mv :: rest =>
    let g := (make_move g mv).1 in
    '(eval, g) ← call g (depth - 1) alpha beta false;
    let g := (undo_move g mv).1 in
    let max_eval := vmax max_eval eval in
    let alpha := vmax alpha eval in
    if vle beta alpha then Ok (max_eval, g)
    else max_loop rest g max_eval alpha beta
  end.

Fixpoint min_loop (moves : list move) (g : ClobberGame)
    (min_eval alpha beta : value) : outcome (value * ClobberGame) :=
  match moves with
  | [] => Ok (min_eval, g)
  | mv :: rest =>
    let g := (make_move g mv).1 in
    '(eval, g) ← call g (depth - 1) alpha beta true;
    let g := (undo_move g mv).1 in
    let min_eval := vmin min_eval eval in
    let beta := vmin beta eval in
    if vle beta alpha then Ok (min_eval, g)
    else min_loop rest g min_eval alpha beta
  end.

(** The loop of [ai_move]; the tests on [self.current_player] are made
    after the undo, on the object as it then is. *)
Fixpoint ai_loop (moves : list move) (g : ClobberGame)
    (best_move : option move) (best_value : value)
    : outcome (option move * ClobberGame) :=
  match moves with
  | [] => Ok (best_move, g)
  | mv :: rest =>
    let g := (make_move g mv).1 in
    '(move_value, g) ← call g (depth - 1) NegInf PosInf false;
    let g := (undo_move g mv).1 in
    if bool_decide (current_player g = BLACK) && vgt move_value best_value
    then ai_loop rest g (Some mv) move_value
    else if bool_decide (current_player g = WHITE) && vlt move_value best_value
    then ai_loop rest g (Some mv) move_value
    else ai_loop rest g best_move best_value
  end.

End Loops.

Fixpoint alpha_beta (fuel : nat) (g : ClobberGame) (depth : Z)
    (alpha beta : value) (maximizing_player : bool)
    : outcome (value * ClobberGame) :=
  match fuel with
  | O => OutOfFuel
  | S fuel =>
    stop ← (if decide (depth = 0) then Ok true else is_terminal g);
    if stop : bool then Ok (Int (evaluate g), g)
    else
      moves ← get_legal_moves g (current_player g);
      if maximizing_player
      then max_loop (alpha_beta fuel) depth moves g NegInf alpha beta
      else min_loop (alpha_beta fuel) depth moves g PosInf alpha beta
  end.

Definition ai_move (fuel : nat) (g : ClobberGame) (depth : Z)
    : outcome (option move * ClobberGame) :=
  let best_value :=
    if decide (current_player g = BLACK) then NegInf else PosInf in
  moves ← get_legal_moves g (current_player g);
  ai_loop (alpha_beta fuel) depth moves g None best_value.

(** ** Well-formed and reachable game objects *)

(** The shape [__init__] establishes and no method changes: [rows] rows
    of [cols] cells each. *)
Definition grid_ok (g : ClobberGame) : Prop :=
  Z.of_nat (length (board g)) = rows g
  ∧ Forall (λ row, Z.of_nat (length row) = cols g) (board g).

(** A game state: a board of the declared shape, BLACK or WHITE to move. *)
Definition wf_game (g : ClobberGame) : Prop :=
  grid_ok g ∧ current_player g ≠ EMPTY.

#[global] Instance grid_ok_dec g : Decision (grid_ok g).
Proof. unfold grid_ok. apply _. Defined.
#[global] Instance wf_game_dec g : Decision (wf_game g).
Proof. unfold wf_game. apply _. Defined.

(** The object after [self.make_move(mv)], after [self.undo_move(mv)]. *)
Definition apply_move (g : ClobberGame) (mv : move) : ClobberGame :=
  (make_move g mv).1.
Definition revert_move (g : ClobberGame) (mv : move) : ClobberGame :=
  (undo_move g mv).1.

(** The states of a game: [ClobberGame(rows, cols)] on a grid of at least
    2x2, then moves the generator offers to the player to move. *)
Inductive reachable : ClobberGame → Prop :=
| reachable_new (rows cols : Z) :
    2 <= rows → 2 <= cols → reachable (new_game rows cols)
| reachable_move (g : ClobberGame) (moves : list move) (mv : move) :
    reachable g →
    get_legal_moves g (current_player g) = Ok moves →
    mv ∈ moves →
    reachable (apply_move g mv).

(** ** The vocabulary of the specification *)

Definition opponent (player : cell) : cell :=
  match player with
  | BLACK => WHITE
  | WHITE => BLACK
  | EMPTY => EMPTY
  end.

Definition in_bounds (g : ClobberGame) (p : coord) : Prop :=
  0 <= p.1 < rows g ∧ 0 <= p.2 < cols g.

(** [q] is the neighbour of [p] one step up, down, left or right. *)
Definition orthogonal_neighbour (p q : coord) : Prop :=
  (q.1 = p.1 - 1 ∧ q.2 = p.2) ∨ (q.1 = p.1 + 1 ∧ q.2 = p.2)
  ∨ (q.1 = p.1 ∧ q.2 = p.2 - 1) ∨ (q.1 = p.1 ∧ q.2 = p.2 + 1).

(** A Clobber move of [player]: from one of its stones onto an adjacent
    stone of the opponent. *)
Definition clobbers (g : ClobberGame) (player : cell) (mv : move) : Prop :=
  in_bounds g mv.1 ∧ get_cell (board g) mv.1.1 mv.1.2 = Some player
  ∧ in_bounds g mv.2 ∧ orthogonal_neighbour mv.1 mv.2
  ∧ get_cell (board g) mv.2.1 mv.2.2 = Some (opponent player).

(** Rank of a step in the order up, down, left, right. *)
Definition direction_rank (di dj : Z) : Z :=
  if decide (di = -1) then 0
  else if decide (di = 1) then 1
  else if decide (dj = -1) then 2
  else 3.

(** Generation order: source cells row-major, then the direction. *)
Definition generated_before (a b : move) : Prop :=
  a.1.1 < b.1.1
  ∨ (a.1.1 = b.1.1
     ∧ (a.1.2 < b.1.2
        ∨ (a.1.2 = b.1.2
           ∧ direction_rank (a.2.1 - a.1.1) (a.2.2 - a.1.2)
             < direction_rank (b.2.1 - b.1.1) (b.2.2 - b.1.2)))).

(** [countOf(BLACK) + countOf(WHITE)], counted as [evaluate] counts. *)
Definition stone_count (g : ClobberGame) : Z :=
  PyList.sum (PyList.count BLACK <$> board g)
  + PyList.sum (PyList.count WHITE <$> board g).

(** ** The generator as a list comprehension

    On a board of the declared shape no subscript of [get_legal_moves]
    raises, and the nested loops compute this list. *)

Definition capturable (g : ClobberGame) (player : cell) (ni nj : Z) : bool :=
  match get_cell (board g) ni nj with
  | Some c => bool_decide (c ≠ player) && bool_decide (c ≠ EMPTY)
  | None => false
  end.

Definition moves_from (g : ClobberGame) (player : cell) (i j : Z) : list move :=
  d ← DIRECTIONS;
  let ni := i + d.1 in
  let nj := j + d.2 in
  if bool_decide (0 <= ni < rows g) && bool_decide (0 <= nj < cols g)
     && capturable g player ni nj
  then [((i, j), (ni, nj))] else [].

Definition legal_moves (g : ClobberGame) (player : cell) : list move :=
  i ← PyList.range (rows g);
  j ← PyList.range (cols g);
  if decide (get_cell (board g) i j = Some player)
  then moves_from g player i j else [].

(** ** Exhaustive minimax

    The search of the specification without the bounds: the same stop
    test, the same evaluation at the leaves, every move of the side to
    move explored on a state of its own. *)

Definition terminal (g : ClobberGame) : bool :=
  bool_decide (legal_moves g BLACK = []) && bool_decide (legal_moves g WHITE = []).

Fixpoint minimax (depth : nat) (g : ClobberGame) (maximizing : bool) : value :=
  match depth with
  | O => Int (evaluate g)
  | S depth' =>
    if terminal g then Int (evaluate g)
    else
      let values :=
        (λ mv, minimax depth' (apply_move g mv) (negb maximizing))
          <$> legal_moves g (current_player g) in
      if maximizing then foldl vmax NegInf values
      else foldl vmin PosInf values
  end.

(** The number of plies a search of depth [depth] can go below [g]: the
    depth itself, or, for a negative depth, which never reaches 0, one
    ply per stone on the board. *)
Definition plies (g : ClobberGame) (depth : Z) : nat :=
  if decide (0 <= depth) then Z.to_nat depth else Z.to_nat (stone_count g).

(** [x] brought into the window [alpha, beta]. *)
Definition clamp (alpha beta x : value) : value := vmax alpha (vmin x beta).

(** What a fail-soft alpha-beta result [v] tells about the minimax value
    [m]: both lie below the window, or both above it, or they are equal. *)
Definition within_window (alpha beta m v : value) : Prop :=
  clamp alpha beta v = clamp alpha beta m.

(** What the loops of [alpha_beta] at [g] assume of the recursive call on
    the position after a move: it returns, hands back the object as it
    got it, and respects the window against minimax of [n] plies. *)
Definition call_ok
    (call : ClobberGame → Z → value → value → bool → outcome (value * ClobberGame))
    (depth : Z) (n : nat) (g : ClobberGame) (moves : list move)
    (maximizing : bool) : Prop :=
  ∀ mv a b, mv ∈ moves → vlt a b →
    ∃ e, call (apply_move g mv) (depth - 1) a b maximizing
         = Ok (e, apply_move g mv)
       ∧ within_window a b (minimax n (apply_move g mv) maximizing) e.

(** ** The selection of [ai_move] over searched values *)

Fixpoint select (player : cell) (candidates : list (move * value))
    (best_move : option move) (best_value : value) : option move :=
  match candidates with
  | [] => best_move
  | (mv, move_value) :: rest =>
    if bool_decide (player = BLACK) && vgt move_value best_value
    then select player rest (Some mv) move_value
    else if bool_decide (player = WHITE) && vlt move_value best_value
    then select player rest (Some mv) move_value
    else select player rest best_move best_value
  end.

(** A move with the minimax value of the position it leads to, the
    opponent to move as the minimizing side. *)
Definition searched (g : ClobberGame) (depth : Z) (mv : move) : move * value :=
  (mv, minimax (plies (apply_move g mv) (depth - 1)) (apply_move g mv) false).

Definition choose_move (g : ClobberGame) (depth : Z) : option move :=
  select (current_player g)
    (searched g depth <$> legal_moves g (current_player g))
    None (if decide (current_player g = BLACK) then NegInf else PosInf).

(** ** Cells by position, for the proofs *)

Definition cell_at (b : grid) (r c : nat) : option cell :=
  row ← b !! r; row !! c.

Definition put (b : grid) (r c : nat) (v : cell) : grid :=
  alter (λ row, <[c := v]> row) r b.

(** ** Vocabulary for further properties *)

(** Two boards with the same number of rows and the same row lengths. *)
Definition same_shape (b b' : grid) : Prop :=
  length <$> b = length <$> b'.

(** The move back from the destination to the source. *)
Definition reverse_move (mv : move) : move := (mv.2, mv.1).

(** [play_steps g n g']: [n] moves, each offered by the generator to the
    player then to move, lead from [g] to [g']. *)
Inductive play_steps : ClobberGame → nat → ClobberGame → Prop :=
| play_steps_stay (g : ClobberGame) : play_steps g 0 g
| play_steps_move (g : ClobberGame) (moves : list move) (mv : move)
      (n : nat) (g' : ClobberGame) :
    get_legal_moves g (current_player g) = Ok moves →
    mv ∈ moves →
    play_steps (apply_move g mv) n g' →
    play_steps g (S n) g'.

(** [a] is strictly better than [b] for [player]: higher for BLACK, lower
    for WHITE. *)
Definition prefers (player : cell) (a b : value) : bool :=
  match player with
  | BLACK => vgt a b
  | WHITE => vlt a b
  | EMPTY => false
  end.

(** ** The console

    [print] appends a line to the output, [input] writes its prompt and
    takes the next line of the input, raising [EOFError] when there is
    none. No handler of the program catches [EOFError]. *)

Inductive output : Type :=
| Line (s : string)      (* print(s) *)
| Prompt (s : string).   (* the prompt of input(s) *)

Inductive failure : Type :=
| EOFError
| UncaughtIndexError
| NoFuel.

(** The result of a run on the console: a value, the input left and the
    output so far, or the exception that ended the run. *)
Inductive run (A : Type) : Type :=
| Returned (a : A) (stdin : list string) (stdout : list output)
| Failed (e : failure) (stdout : list output).
Arguments Returned {A} a stdin stdout.
Arguments Failed {A} e stdout.

Definition ask_rows : string := "Enter number of rows for the grid: ".
Definition ask_cols : string := "Enter number of columns for the grid: ".
Definition msg_too_small : string :=
  "Grid size must be at least 2x2. Please try again.".
Definition msg_not_numeric : string :=
  "Invalid input. Please enter numeric values.".
Definition ask_move : string :=
  "Enter your move as 'row1 col1 row2 col2' (e.g., 1 0 0 0): ".
Definition msg_four_numbers : string :=
  "Invalid input. Enter exactly four numbers.".
Definition msg_not_legal : string := "Invalid move, please try again.".
Definition msg_ai_turn : string := "AI's (BLACK) turn:".
Definition msg_manual_turn : string := "Manual Player's (WHITE) turn:".
Definition msg_ai_stuck : string := "AI has no legal moves left.".
Definition msg_no_move : string := "No valid move was made.".
Definition msg_game_over : string := "Game over!".
Definition msg_black_wins : string :=
  "AI (BLACK) wins by making the last move!".
Definition msg_white_wins : string :=
  "Manual Player (WHITE) wins by making the last move!".

(** The string a cell holds. *)
Definition cell_str (c : cell) : string :=
  match c with
  | BLACK => "B"
  | WHITE => "W"
  | EMPTY => "."
  end.

(** [sep.join(l)] *)
Fixpoint join (sep : string) (l : list string) : string :=
  match l with
  | [] => ""%string
  | x :: l' =>
    match l' with
    | [] => x
    | _ :: _ => String.append x (String.append sep (join sep l'))
    end
  end.

Definition display_board (g : ClobberGame) : list output :=
  ((λ row, Line (join " "%string (cell_str <$> row))) <$> board g)
  ++ [Line ""%string].

(** What [make_move] or [undo_move] printed, as output. *)
Definition printed (r : report) : list output :=
  match r with
  | Quiet => []
  | Printed msg => [Line msg]
  end.

Section Console.

(** The builtins the program calls on its input: [int(s)], [None] where
    it raises [ValueError], and [s.split()]. *)
Variable int : string → option Z.
Variable split : string → list string.

Fixpoint get_grid_size_from_user (stdin : list string) (stdout : list output)
    : run (Z * Z) :=
  match stdin with
  | [] => Failed EOFError (stdout ++ [Prompt ask_rows])
  | line1 :: stdin1 =>
    let stdout := stdout ++ [Prompt ask_rows] in
    match int line1 with
    | None => get_grid_size_from_user stdin1 (stdout ++ [Line msg_not_numeric])
    | Some rows =>
      let stdout := stdout ++ [Prompt ask_cols] in
      match stdin1 with
      | [] => Failed EOFError stdout
      | line2 :: stdin2 =>
        match int line2 with
        | None =>
          get_grid_size_from_user stdin2 (stdout ++ [Line msg_not_numeric])
        | Some cols =>
          if decide (rows > 1 ∧ cols > 1)
          then Returned (rows, cols) stdin2 stdout
          else get_grid_size_from_user stdin2 (stdout ++ [Line msg_too_small])
        end
      end
    end
  end.

(** [ClobberGame(rows, cols)], each argument [None] when left out. *)
Definition construct (rows cols : option Z)
    (stdin : list string) (stdout : list output) : run ClobberGame :=
  match rows, cols with
  | Some rows, Some cols => Returned (new_game rows cols) stdin stdout
  | _, _ =>
    match get_grid_size_from_user stdin stdout with
    | Returned (rows, cols) stdin stdout =>
      Returned (new_game rows cols) stdin stdout
    | Failed e stdout => Failed e stdout
    end
  end.

(** The loop of [get_manual_move], over the list of legal moves computed
    before it. Unpacking anything but four tokens raises [ValueError]
    like a token that is not a number. *)
Fixpoint manual_loop (legal_moves : list move)
    (stdin : list string) (stdout : list output) : run (option move) :=
  match stdin with
  | [] => Failed EOFError (stdout ++ [Prompt ask_move])
  | line :: stdin =>
    let stdout := stdout ++ [Prompt ask_move] in
    let tokens := split line in
    if decide (length tokens ≠ 4%nat)
    then manual_loop legal_moves stdin (stdout ++ [Line msg_four_numbers])
    else
      match tokens with
      | [t1; t2; t3; t4] =>
        match int t1, int t2, int t3, int t4 with
        | Some row1, Some col1, Some row2, Some col2 =>
          if decide (((row1, col1), (row2, col2)) ∈ legal_moves)
          then Returned (Some ((row1, col1), (row2, col2))) stdin stdout
          else manual_loop legal_moves stdin (stdout ++ [Line msg_not_legal])
        | _, _, _, _ =>
          manual_loop legal_moves stdin (stdout ++ [Line msg_not_numeric])
        end
      | _ => manual_loop legal_moves stdin (stdout ++ [Line msg_not_numeric])
      end
  end.

Definition get_manual_move (g : ClobberGame)
    (stdin : list string) (stdout : list output) : run (option move) :=
  match get_legal_moves g (current_player g) with
  | Ok legal_moves => manual_loop legal_moves stdin stdout
  | IndexError => Failed UncaughtIndexError stdout
  | OutOfFuel => Failed NoFuel stdout
  end.

(** The loop of [play]; [rounds] bounds its iterations and [fuel] the
    recursion of each search. [ai_move()] searches at its default depth 5. *)
Fixpoint play_loop (rounds fuel : nat) (g : ClobberGame)
    (last_player : option cell) (stdin : list string) (stdout : list output)
    : run (ClobberGame * option cell) :=
  match rounds with
  | O => Failed NoFuel stdout
  | S rounds =>
    match is_terminal g with
    | IndexError => Failed UncaughtIndexError stdout
    | OutOfFuel => Failed NoFuel stdout
    | Ok true => Returned (g, last_player) stdin stdout
    | Ok false =>
      let stdout := stdout ++ display_board g in
      if decide (current_player g = BLACK) then
        let stdout := stdout ++ [Line msg_ai_turn] in
        match ai_move fuel g 5 with
        | IndexError => Failed UncaughtIndexError stdout
        | OutOfFuel => Failed NoFuel stdout
        | Ok (Some mv, g) =>
          let '(g, r) := make_move g mv in
          play_loop rounds fuel g (Some BLACK) stdin (stdout ++ printed r)
        | Ok (None, g) =>
          Returned (g, last_player) stdin (stdout ++ [Line msg_ai_stuck])
        end
      else
        let stdout := stdout ++ [Line msg_manual_turn] in
        match get_manual_move g stdin stdout with
        | Failed e stdout => Failed e stdout
        | Returned (Some mv) stdin stdout =>
          let '(g, r) := make_move g mv in
          play_loop rounds fuel g (Some WHITE) stdin (stdout ++ printed r)
        | Returned None stdin stdout =>
          Returned (g, last_player) stdin (stdout ++ [Line msg_no_move])
        end
    end
  end.

(** The line that ends [play]. *)
Definition announcement (last_player : option cell) : string :=
  if decide (last_player = Some BLACK) then msg_black_wins else msg_white_wins.

Definition play (rounds fuel : nat) (g : ClobberGame)
    (stdin : list string) (stdout : list output) : run ClobberGame :=
  match play_loop rounds fuel g None stdin stdout with
  | Failed e stdout => Failed e stdout
  | Returned (g, last_player) stdin stdout =>
    Returned g stdin
      (stdout ++ [Line msg_game_over] ++ display_board g
              ++ [Line (announcement last_player)])
  end.

(** The module body: [game = ClobberGame()], [game.play()]. *)
Definition main (rounds fuel : nat) (stdin : list string) : run ClobberGame :=
  match construct None None stdin [] with
  | Failed e stdout => Failed e stdout
  | Returned game stdin stdout => play rounds fuel game stdin stdout
  end.

End Console.

(** Stand-ins for the two builtins in the sample runs below. On the
    lines of those runs they answer as Python does: [sample_int] reads
    the one-character strings 0 to 3 and refuses the other lines used,
    [sample_split] cuts at spaces. *)
Definition sample_int (s : string) : option Z :=
  match s with
  | "0" => Some 0
  | "1" => Some 1
  | "2" => Some 2
  | "3" => Some 3
  | _ => None
  end%string.

Fixpoint sample_split_from (word s : string) : list string :=
  let flush := match word with EmptyString => [] | _ => [word] end in
  match s with
  | EmptyString => flush
  | String c rest =>
    if Ascii.eqb c " "%char then flush ++ sample_split_from EmptyString rest
    else sample_split_from (String.append word (String c EmptyString)) rest
  end.

Definition sample_split (s : string) : list string :=
  sample_split_from EmptyString s.

(** ** Sanity checks on small boards *)

Example init_2x3 :
  init_board 2 3 = [[BLACK; WHITE; BLACK]; [WHITE; BLACK; WHITE]].
Proof. reflexivity. Qed.

Example moves_2x2 :
  get_legal_moves (new_game 2 2) BLACK
  = Ok [((0, 0), (1, 0)); ((0, 0), (0, 1)); ((1, 1), (0, 1)); ((1, 1), (1, 0))].
Proof. reflexivity. Qed.

Example search_2x3 :
  alpha_beta 5 (new_game 2 3) 4 NegInf PosInf true
  = Ok (minimax 4 (new_game 2 3) true, new_game 2 3).
Proof. vm_compute. reflexivity. Qed.

Example wf_2x3 : wf_game (new_game 2 3).
Proof. apply (bool_decide_unpack _). vm_compute. exact I. Qed.

(** * Facts about the model *)

(** ** Python subscripts at non-negative indices *)

Section PyListFacts.
Context {A : Type}.
Implicit Types (l : list A) (i : Z) (x : A).

Lemma getitem_nonneg l i : 0 <= i → PyList.getitem l i = l !! Z.to_nat i.
Proof.
  intros Hi. unfold PyList.getitem, PyList.position.
  destruct (decide (0 <= i < Z.of_nat (length l))) as [Hin|Hout]; simpl; [done|].
  destruct (decide (- Z.of_nat (length l) <= i < 0)); [lia|simpl].
  symmetry. apply lookup_ge_None. lia.
Qed.

Lemma setitem_nonneg l i x :
  0 <= i < Z.of_nat (length l) →
  PyList.setitem l i x = Some (<[Z.to_nat i := x]> l).
Proof.
  intros Hi. unfold PyList.setitem, PyList.position.
  by rewrite decide_True.
Qed.

Lemma foldl_add_shift (a : Z) (zs : list Z) :
  foldl Z.add a zs = a + foldl Z.add 0 zs.
Proof.
  revert a. induction zs as [|y zs IH]; intros a; simpl; [lia|].
  rewrite (IH (a + y)), (IH (0 + y)). lia.
Qed.

Lemma sum_cons (z : Z) (zs : list Z) : PyList.sum (z :: zs) = z + PyList.sum zs.
Proof. unfold PyList.sum. simpl. apply foldl_add_shift. Qed.

Context `{EqDecision A}.

Lemma count_cons x y l :
  PyList.count x (y :: l) = (if decide (y = x) then 1 else 0) + PyList.count x l.
Proof.
  unfold PyList.count. rewrite filter_cons.
  destruct (decide (y = x)); simpl; lia.
Qed.

Lemma count_insert x l (n : nat) y v :
  l !! n = Some y →
  PyList.count x (<[n := v]> l)
  = PyList.count x l - (if decide (y = x) then 1 else 0)
    + (if decide (v = x) then 1 else 0).
Proof.
  revert n. induction l as [|z l IH]; intros [|n] Hn; simplify_eq/=.
  - rewrite !count_cons. lia.
  - rewrite !count_cons, (IH n Hn). lia.
Qed.

End PyListFacts.

(** ** Cells by position *)

Section GridFacts.
Implicit Types (b : grid) (r c : nat) (v w : cell).

Lemma get_cell_nonneg b i j :
  0 <= i → 0 <= j → get_cell b i j = cell_at b (Z.to_nat i) (Z.to_nat j).
Proof.
  intros Hi Hj. unfold get_cell, cell_at. rewrite getitem_nonneg by done.
  destruct (b !! Z.to_nat i) as [row|]; simpl; [|done].
  by apply getitem_nonneg.
Qed.

Lemma set_cell_nonneg b i j v :
  0 <= i → 0 <= j → is_Some (cell_at b (Z.to_nat i) (Z.to_nat j)) →
  set_cell b i j v = Some (put b (Z.to_nat i) (Z.to_nat j) v).
Proof.
  intros Hi Hj [x Hx]. unfold set_cell, cell_at, put in *.
  rewrite getitem_nonneg by done.
  destruct (b !! Z.to_nat i) as [row|] eqn:Hrow; simplify_eq/=.
  pose proof (lookup_lt_Some _ _ _ Hrow). pose proof (lookup_lt_Some _ _ _ Hx).
  rewrite setitem_nonneg by lia. simpl. rewrite setitem_nonneg by lia.
  f_equal. rewrite list_insert_alter. apply list_alter_ext; [|done].
  intros row' ?. by simplify_eq.
Qed.

Lemma cell_at_put b r c v r' c' :
  is_Some (cell_at b r c) →
  cell_at (put b r c v) r' c'
  = if decide (r = r' ∧ c = c') then Some v else cell_at b r' c'.
Proof.
  intros [x Hx]. unfold cell_at, put in *.
  destruct (b !! r) as [row|] eqn:Hrow; simplify_eq/=.
  destruct (decide (r = r')) as [<-|Hr].
  - rewrite list_lookup_alter_eq, Hrow. simpl.
    destruct (decide (c = c')) as [<-|Hc].
    + rewrite decide_True by done.
      apply list_lookup_insert_eq. by eapply lookup_lt_Some.
    + rewrite decide_False by (by intros [_ ?]). by apply list_lookup_insert_ne.
  - rewrite decide_False by (by intros [? _]). by rewrite list_lookup_alter_ne.
Qed.

Lemma put_put_eq b r c v w : put (put b r c v) r c w = put b r c w.
Proof.
  unfold put. rewrite list_alter_alter_eq. apply list_alter_ext; [|done].
  intros row _. simpl. apply list_insert_insert_eq.
Qed.

Lemma put_put_ne b r c v r' c' w :
  (r, c) ≠ (r', c') →
  put (put b r c v) r' c' w = put (put b r' c' w) r c v.
Proof.
  intros Hne. unfold put. destruct (decide (r = r')) as [<-|Hr].
  - rewrite !list_alter_alter_eq. apply list_alter_ext; [|done].
    intros row _. simpl. apply list_insert_insert_ne. congruence.
  - apply list_alter_alter_ne. done.
Qed.

Lemma put_id b r c v : cell_at b r c = Some v → put b r c v = b.
Proof.
  intros Hv. unfold put, cell_at in *.
  destruct (b !! r) as [row|] eqn:Hrow; simplify_eq/=.
  rewrite <-(list_insert_id b r row) at 2 by done.
  rewrite list_insert_alter. apply list_alter_ext; [|done].
  intros row' ?. simplify_eq. by apply list_insert_id.
Qed.

Lemma length_put b r c v : length (put b r c v) = length b.
Proof. apply length_alter. Qed.

Lemma Forall_length_put b r c v (n : Z) :
  Forall (λ row, Z.of_nat (length row) = n) b →
  Forall (λ row, Z.of_nat (length row) = n) (put b r c v).
Proof.
  intros Hb. unfold put. apply Forall_alter; [done|].
  intros row _ Hrow. by rewrite length_insert.
Qed.

Lemma sum_count_put (x : cell) b r c y v :
  cell_at b r c = Some y →
  PyList.sum (PyList.count x <$> put b r c v)
  = PyList.sum (PyList.count x <$> b)
    - (if decide (y = x) then 1 else 0) + (if decide (v = x) then 1 else 0).
Proof.
  unfold cell_at, put. revert r.
  induction b as [|row b IH]; intros [|r] Hy; simplify_eq/=.
  - rewrite !sum_cons, (count_insert x row c y v) by done. lia.
  - rewrite !sum_cons, (IH r Hy). lia.
Qed.

End GridFacts.

(** ** The generator on a board of the declared shape *)

Lemma for_each_collect {A B} (l : list A) (body : A → list B → outcome (list B))
    (f : A → list B) (acc : list B) :
  (∀ x acc', x ∈ l → body x acc' = Ok (acc' ++ f x)) →
  for_each l body acc = Ok (acc ++ (l ≫= f)).
Proof.
  revert acc. induction l as [|x l IH]; intros acc Hbody; csimpl.
  - by rewrite app_nil_r.
  - rewrite Hbody by left. simpl. rewrite IH, app_assoc; [done|].
    intros y acc' Hy. apply Hbody. by right.
Qed.

Lemma bind_subscript_Some {A B} (a : A) (f : A → outcome B) :
  subscript (Some a) ≫= f = f a.
Proof. reflexivity. Qed.

Lemma grid_ok_cell g i j :
  grid_ok g → 0 <= i < rows g → 0 <= j < cols g →
  is_Some (get_cell (board g) i j).
Proof.
  intros [Hrows Hcols] Hi Hj. rewrite get_cell_nonneg by lia. unfold cell_at.
  destruct (lookup_lt_is_Some_2 (board g) (Z.to_nat i)) as [row Hrow]; [lia|].
  rewrite Hrow. simpl. apply lookup_lt_is_Some_2.
  rewrite Forall_lookup in Hcols. specialize (Hcols _ _ Hrow). simpl in Hcols. lia.
Qed.

Lemma grid_ok_cell_at g i j :
  grid_ok g → 0 <= i < rows g → 0 <= j < cols g →
  is_Some (cell_at (board g) (Z.to_nat i) (Z.to_nat j)).
Proof.
  intros Hg Hi Hj. rewrite <-get_cell_nonneg by lia. by apply grid_ok_cell.
Qed.

Lemma scan_directions_collect g player i j moves :
  grid_ok g →
  for_each DIRECTIONS (λ d moves,
    let ni := i + d.1 in
    let nj := j + d.2 in
    if decide (0 <= ni < rows g) then
      if decide (0 <= nj < cols g) then
        c' ← subscript (get_cell (board g) ni nj);
        if decide (c' ≠ player) then
          if decide (c' ≠ EMPTY) then Ok (moves ++ [((i, j), (ni, nj))])
          else Ok moves
        else Ok moves
      else Ok moves
    else Ok moves) moves
  = Ok (moves ++ moves_from g player i j).
Proof.
  intros Hg. unfold moves_from. apply for_each_collect.
  intros [di dj] acc _. simpl. unfold capturable.
  destruct (decide (0 <= i + di < rows g)) as [Hi|Hi];
    [rewrite bool_decide_eq_true_2 by done
    |rewrite bool_decide_eq_false_2 by done; simpl; by rewrite app_nil_r].
  destruct (decide (0 <= j + dj < cols g)) as [Hj|Hj];
    [rewrite bool_decide_eq_true_2 by done
    |rewrite bool_decide_eq_false_2 by done; simpl; by rewrite app_nil_r].
  destruct (grid_ok_cell g _ _ Hg Hi Hj) as [c' ->]. simpl.
  destruct (decide (c' ≠ player));
    [rewrite bool_decide_eq_true_2 by done
    |rewrite bool_decide_eq_false_2 by done; simpl; by rewrite app_nil_r].
  destruct (decide (c' ≠ EMPTY));
    [rewrite bool_decide_eq_true_2 by done
    |rewrite bool_decide_eq_false_2 by done; simpl; by rewrite app_nil_r].
  done.
Qed.

Lemma get_legal_moves_ok g player :
  grid_ok g → get_legal_moves g player = Ok (legal_moves g player).
Proof.
  intros Hg. unfold get_legal_moves, legal_moves.
  rewrite (for_each_collect _ _
    (λ i, j ← PyList.range (cols g);
          if decide (get_cell (board g) i j = Some player)
          then moves_from g player i j else [])); [reflexivity|].
  intros i acc Hi. apply elem_of_seqZ in Hi.
  apply for_each_collect. intros j acc' Hj. apply elem_of_seqZ in Hj.
  destruct (grid_ok_cell g i j Hg) as [c Hc]; [lia..|].
  rewrite Hc, bind_subscript_Some.
  destruct (decide (c = player)) as [->|Hne].
  - rewrite decide_True by done. by apply scan_directions_collect.
  - rewrite decide_False by congruence. by rewrite app_nil_r.
Qed.

(** ** What the generator returns, and in which order *)

Lemma capturable_opponent g player ni nj :
  player ≠ EMPTY →
  capturable g player ni nj = true
  ↔ get_cell (board g) ni nj = Some (opponent player).
Proof.
  intros Hp. unfold capturable.
  destruct (get_cell (board g) ni nj) as [c|]; [|split; done].
  rewrite andb_true_iff, !bool_decide_eq_true.
  destruct c, player; simpl; intuition congruence.
Qed.

Lemma elem_of_moves_from g player i j mv :
  mv ∈ moves_from g player i j
  ↔ mv.1 = (i, j) ∧ orthogonal_neighbour (i, j) mv.2 ∧ in_bounds g mv.2
    ∧ capturable g player mv.2.1 mv.2.2 = true.
Proof.
  unfold moves_from, orthogonal_neighbour, in_bounds.
  rewrite list_elem_of_bind. split.
  - intros ([di dj] & Hmv & Hd). simpl in Hmv.
    destruct (bool_decide (0 <= i + di < rows g)) eqn:Hi; simpl in Hmv;
      [|by apply elem_of_nil in Hmv].
    destruct (bool_decide (0 <= j + dj < cols g)) eqn:Hj; simpl in Hmv;
      [|by apply elem_of_nil in Hmv].
    destruct (capturable g player (i + di) (j + dj)) eqn:Hc;
      [|by apply elem_of_nil in Hmv].
    apply list_elem_of_singleton in Hmv. subst mv. simpl.
    apply bool_decide_eq_true in Hi, Hj.
    unfold DIRECTIONS in Hd. rewrite !elem_of_cons, elem_of_nil in Hd.
    repeat split; try done; try lia.
    destruct Hd as [?|[?|[?|[?|[]]]]]; simplify_eq; lia.
  - intros (Hsrc & Hadj & [Hi Hj] & Hc). destruct mv as [src [ni nj]].
    simpl in *. subst src.
    exists (ni - i, nj - j). simpl.
    replace (i + (ni - i)) with ni by lia. replace (j + (nj - j)) with nj by lia.
    rewrite !bool_decide_eq_true_2 by done. rewrite Hc. simpl.
    split; [by apply list_elem_of_singleton|].
    unfold DIRECTIONS. rewrite !elem_of_cons.
    destruct Hadj as [[-> ->]|[[-> ->]|[[-> ->]|[-> ->]]]].
    + left. apply (f_equal2 pair); lia.
    + right; left. apply (f_equal2 pair); lia.
    + right; right; left. apply (f_equal2 pair); lia.
    + right; right; right; left. apply (f_equal2 pair); lia.
Qed.

Lemma elem_of_legal_moves g player mv :
  grid_ok g → player ≠ EMPTY →
  mv ∈ legal_moves g player ↔ clobbers g player mv.
Proof.
  intros Hg Hp. unfold legal_moves, clobbers.
  rewrite list_elem_of_bind. setoid_rewrite list_elem_of_bind.
  unfold PyList.range. setoid_rewrite elem_of_seqZ. split.
  - intros (i & (j & Hmv & Hj) & Hi).
    destruct (decide (get_cell (board g) i j = Some player)) as [Hsrc|];
      [|by apply elem_of_nil in Hmv].
    apply elem_of_moves_from in Hmv as (Hmv & Hadj & Hin & Hc).
    apply capturable_opponent in Hc; [|done].
    destruct mv as [src dst]. simpl in *. subst src.
    unfold in_bounds in *. simpl. repeat split; try done; lia.
  - intros ([Hi Hj] & Hsrc & Hin & Hadj & Hdst).
    destruct mv as [[i j] dst]. simpl in *.
    exists i. split; [|lia]. exists j. split; [|lia].
    rewrite decide_True by done. apply elem_of_moves_from. simpl.
    repeat split; try done; try apply Hin. by apply capturable_opponent.
Qed.

Lemma moves_from_source g player i j mv :
  mv ∈ moves_from g player i j → mv.1 = (i, j).
Proof. rewrite elem_of_moves_from. by intros [? _]. Qed.

Lemma moves_of_cell_source g player i j mv :
  mv ∈ (if decide (get_cell (board g) i j = Some player)
        then moves_from g player i j else []) →
  mv.1 = (i, j).
Proof.
  destruct (decide (get_cell (board g) i j = Some player)).
  - apply moves_from_source.
  - by intros ?%elem_of_nil.
Qed.

Lemma StronglySorted_seqZ m n : StronglySorted Z.lt (seqZ m n).
Proof.
  remember (Z.to_nat n) as k eqn:Hk. revert m n Hk.
  induction k as [|k IH]; intros m n Hk.
  - rewrite seqZ_nil by lia. constructor.
  - rewrite seqZ_cons by lia. constructor.
    + apply IH. lia.
    + apply Forall_seqZ. lia.
Qed.

Lemma StronglySorted_bind {A B} (RA : relation A) (RB : relation B)
    (l : list A) (f : A → list B) :
  StronglySorted RA l →
  (∀ x, x ∈ l → StronglySorted RB (f x)) →
  (∀ x y a b, RA x y → a ∈ f x → b ∈ f y → RB a b) →
  StronglySorted RB (l ≫= f).
Proof.
  intros Hl Hf Hcross. induction Hl as [|x l Hl IH Hx]; csimpl.
  - constructor.
  - apply StronglySorted_app_2.
    + intros a b Ha Hb. apply list_elem_of_bind in Hb as (y & Hb & Hy).
      rewrite Forall_forall in Hx. eauto.
    + apply Hf. by left.
    + apply IH. intros y Hy. apply Hf. by right.
Qed.

Lemma generated_before_direction i j di dj di' dj' :
  direction_rank di dj < direction_rank di' dj' →
  generated_before ((i, j), (i + di, j + dj)) ((i, j), (i + di', j + dj')).
Proof.
  intros Hrank. unfold generated_before. simpl.
  replace (i + di - i) with di by lia. replace (j + dj - j) with dj by lia.
  replace (i + di' - i) with di' by lia. replace (j + dj' - j) with dj' by lia.
  auto.
Qed.

Lemma moves_from_sorted g player i j :
  StronglySorted generated_before (moves_from g player i j).
Proof.
  unfold moves_from, DIRECTIONS. csimpl.
  repeat match goal with
  | |- context [if ?b then _ else _] => destruct b
  end; simpl;
  repeat first
    [ apply SSorted_nil
    | apply SSorted_cons
    | apply Forall_nil_2
    | apply Forall_cons_2
    | by apply generated_before_direction ].
Qed.

Lemma legal_moves_sorted g player :
  StronglySorted generated_before (legal_moves g player).
Proof.
  unfold legal_moves.
  apply (StronglySorted_bind Z.lt); [apply StronglySorted_seqZ| |].
  - intros i _. apply (StronglySorted_bind Z.lt); [apply StronglySorted_seqZ| |].
    + intros j _. case_decide; [apply moves_from_sorted|constructor].
    + intros j j' [asrc adst] [bsrc bdst] Hjj'
        Ha%moves_of_cell_source Hb%moves_of_cell_source.
      simpl in *. subst. unfold generated_before. simpl. auto.
  - intros i i' [asrc adst] [bsrc bdst] Hii' Ha Hb.
    apply list_elem_of_bind in Ha as (j & Ha%moves_of_cell_source & _).
    apply list_elem_of_bind in Hb as (j' & Hb%moves_of_cell_source & _).
    simpl in *. subst. unfold generated_before. simpl. auto.
Qed.

(** ** Making and undoing a move *)

Lemma make_move_in_bounds g i j ni nj :
  grid_ok g → in_bounds g (i, j) → in_bounds g (ni, nj) →
  get_cell (board g) i j = Some (current_player g) →
  make_move g ((i, j), (ni, nj))
  = (switch_player
       (with_board g
          (put (put (board g) (Z.to_nat ni) (Z.to_nat nj) (current_player g))
               (Z.to_nat i) (Z.to_nat j) EMPTY)),
     Quiet).
Proof.
  intros Hg [Hi Hj] [Hni Hnj] Hsrc. simpl in *. unfold make_move.
  rewrite Hsrc, decide_False by (by intros []).
  pose proof (grid_ok_cell_at g ni nj Hg Hni Hnj) as Hdst.
  pose proof (grid_ok_cell_at g i j Hg Hi Hj) as Hsrc'.
  rewrite set_cell_nonneg by (done || lia).
  rewrite set_cell_nonneg; [done|lia|lia|].
  rewrite cell_at_put by done. by case_decide.
Qed.

Lemma undo_move_in_bounds g i j ni nj c :
  grid_ok g → in_bounds g (i, j) → in_bounds g (ni, nj) →
  get_cell (board g) ni nj = Some c →
  undo_move g ((i, j), (ni, nj))
  = (switch_player
       (with_board g
          (put (put (board g) (Z.to_nat i) (Z.to_nat j) c)
               (Z.to_nat ni) (Z.to_nat nj)
               (if decide (c = BLACK) then WHITE else BLACK))),
     Quiet).
Proof.
  intros Hg [Hi Hj] [Hni Hnj] Hdst. simpl in *. unfold undo_move.
  pose proof (grid_ok_cell_at g ni nj Hg Hni Hnj) as Hdst'.
  pose proof (grid_ok_cell_at g i j Hg Hi Hj) as Hsrc'.
  rewrite Hdst, set_cell_nonneg by (done || lia).
  rewrite get_cell_nonneg, cell_at_put, decide_True by (done || lia).
  rewrite set_cell_nonneg; [done|lia|lia|].
  rewrite cell_at_put by done. by case_decide.
Qed.

Lemma clobbers_distinct g player mv : clobbers g player mv → mv.1 ≠ mv.2.
Proof.
  intros (_ & _ & _ & Hadj & _) Heq. rewrite <-Heq in Hadj.
  unfold orthogonal_neighbour in Hadj. lia.
Qed.

Lemma to_nat_coord_ne g (p q : coord) :
  in_bounds g p → in_bounds g q → p ≠ q →
  (Z.to_nat p.1, Z.to_nat p.2) ≠ (Z.to_nat q.1, Z.to_nat q.2).
Proof.
  intros [? ?] [? ?] Hne Heq. destruct p, q. simplify_eq/=.
  apply Hne. f_equal; lia.
Qed.

Lemma apply_move_clobbers g mv :
  grid_ok g → clobbers g (current_player g) mv →
  apply_move g mv
  = switch_player
      (with_board g
         (put (put (board g) (Z.to_nat mv.2.1) (Z.to_nat mv.2.2) (current_player g))
              (Z.to_nat mv.1.1) (Z.to_nat mv.1.2) EMPTY)).
Proof.
  intros Hg (Hsrc & Hp & Hdst & _). destruct mv as [[i j] [ni nj]].
  unfold apply_move. by rewrite make_move_in_bounds.
Qed.

Lemma wf_game_apply_move g mv :
  grid_ok g → clobbers g (current_player g) mv → wf_game (apply_move g mv).
Proof.
  intros Hg Hmv. rewrite apply_move_clobbers by done. split.
  - destruct Hg as [Hrows Hcols]. split; simpl.
    + by rewrite !length_put.
    + by do 2 apply Forall_length_put.
  - simpl. by case_decide.
Qed.

Lemma undo_make_move g mv :
  wf_game g → clobbers g (current_player g) mv →
  revert_move (apply_move g mv) mv = g.
Proof.
  intros [Hg Hp] Hmv. pose proof (clobbers_distinct _ _ _ Hmv) as Hne.
  pose proof (wf_game_apply_move g mv Hg Hmv) as [Hg' _].
  rewrite apply_move_clobbers in * by done.
  destruct Hmv as (Hsrc & Hcs & Hdst & _ & Hcd).
  pose proof (to_nat_coord_ne g _ _ Hsrc Hdst Hne) as Hne'.
  destruct mv as [[i j] [ni nj]]. simpl in *.
  destruct Hsrc as [Hi Hj], Hdst as [Hni Hnj]. simpl in *.
  rewrite get_cell_nonneg in Hcs, Hcd by lia.
  unfold revert_move.
  rewrite (undo_move_in_bounds _ i j ni nj (current_player g)); try done.
  - simpl. destruct g as [r c b p]. unfold switch_player, with_board. simpl in *.
    f_equal.
    + rewrite put_put_eq, (put_put_ne _ (Z.to_nat ni)) by done.
      rewrite (put_id b (Z.to_nat i)) by done. rewrite put_put_eq.
      apply put_id. rewrite Hcd. by destruct p.
    + by destruct p.
  - simpl. rewrite get_cell_nonneg by lia. rewrite cell_at_put.
    + rewrite decide_False by (intros [? ?]; congruence).
      rewrite cell_at_put by (by rewrite Hcd). by rewrite decide_True.
    + rewrite cell_at_put by (by rewrite Hcd).
      rewrite decide_False by (intros [? ?]; congruence). by rewrite Hcs.
Qed.

Lemma stone_count_apply_move g mv :
  wf_game g → clobbers g (current_player g) mv →
  stone_count (apply_move g mv) = stone_count g - 1.
Proof.
  intros [Hg Hp] Hmv. pose proof (clobbers_distinct _ _ _ Hmv) as Hne.
  rewrite apply_move_clobbers by done.
  destruct Hmv as (Hsrc & Hcs & Hdst & _ & Hcd).
  pose proof (to_nat_coord_ne g _ _ Hsrc Hdst Hne) as Hne'.
  destruct Hsrc as [Hi Hj], Hdst as [Hni Hnj].
  rewrite get_cell_nonneg in Hcs, Hcd by lia.
  unfold stone_count. simpl.
  rewrite !(sum_count_put _ _ _ _ (current_player g) EMPTY).
  - rewrite !(sum_count_put _ _ _ _ (opponent (current_player g))) by done.
    destruct (current_player g); simpl; try done; repeat case_decide; try done; lia.
  - rewrite cell_at_put by (by rewrite Hcd).
    rewrite decide_False; [done|]. intros [? ?]. apply Hne'. congruence.
  - rewrite cell_at_put by (by rewrite Hcd).
    rewrite decide_False; [done|]. intros [? ?]. apply Hne'. congruence.
Qed.

(** ** The order on search values *)

Ltac value_cases :=
  intros; unfold clamp, vmax, vmin, vgt, vlt in *;
  repeat match goal with v : value |- _ => destruct v end;
  simpl in *;
  repeat (case_bool_decide; simpl in * );
  try done; try lia; try (f_equal; lia).

Lemma vmax_assoc a b c : vmax (vmax a b) c = vmax a (vmax b c).
Proof. value_cases. Qed.
Lemma vmin_assoc a b c : vmin (vmin a b) c = vmin a (vmin b c).
Proof. value_cases. Qed.
Lemma vmax_NegInf a : vmax NegInf a = a.
Proof. value_cases. Qed.
Lemma vmin_PosInf a : vmin PosInf a = a.
Proof. value_cases. Qed.
Lemma vmax_NegInf_r a : vmax a NegInf = a.
Proof. value_cases. Qed.
Lemma vmin_PosInf_r a : vmin a PosInf = a.
Proof. value_cases. Qed.
Lemma clamp_full x : clamp NegInf PosInf x = x.
Proof. value_cases. Qed.

Lemma clamp_vmax α β x y :
  clamp α β (vmax x y) = vmax (clamp α β x) (vmin y β).
Proof. value_cases. Qed.
Lemma clamp_raise α β e y :
  vle β (vmax α e) = false →
  clamp (vmax α e) β y = vmax (clamp α β e) (vmin y β).
Proof. value_cases. Qed.
Lemma clamp_cut_max α β e :
  vlt α β → vle β (vmax α e) = true → clamp α β e = β.
Proof. value_cases. Qed.
Lemma vmax_absorb b x : vmax b (vmin x b) = b.
Proof. value_cases. Qed.

Lemma clamp_vmin α β x y :
  clamp α β (vmin x y) = vmin (clamp α β x) (vmax α y).
Proof. value_cases. Qed.
Lemma clamp_lower α β e y :
  clamp α (vmin β e) y = vmin (clamp α β e) (vmax α y).
Proof. value_cases. Qed.
Lemma clamp_cut_min α β e :
  vlt α β → vle (vmin β e) α = true → clamp α β e = α.
Proof. value_cases. Qed.
Lemma vmin_absorb a x : vmin a (vmax a x) = a.
Proof. value_cases. Qed.

Lemma foldl_vmax_cons m ms :
  foldl vmax NegInf (m :: ms) = vmax m (foldl vmax NegInf ms).
Proof.
  simpl. rewrite vmax_NegInf. revert m.
  induction ms as [|x ms IH]; intros m; simpl.
  - value_cases.
  - rewrite vmax_NegInf, (IH (vmax m x)), (IH x). apply vmax_assoc.
Qed.

Lemma foldl_vmin_cons m ms :
  foldl vmin PosInf (m :: ms) = vmin m (foldl vmin PosInf ms).
Proof.
  simpl. rewrite vmin_PosInf. revert m.
  induction ms as [|x ms IH]; intros m; simpl.
  - value_cases.
  - rewrite vmin_PosInf, (IH (vmin m x)), (IH x). apply vmin_assoc.
Qed.

Lemma within_window_full m v : within_window NegInf PosInf m v → v = m.
Proof. unfold within_window. by rewrite !clamp_full. Qed.

Lemma window_max_cut α β m e M :
  vlt α β → vle β (vmax α e) = true → within_window α β m e →
  within_window α β (vmax m M) e.
Proof.
  unfold within_window. intros Hab Hcut He.
  rewrite clamp_vmax, <-He, (clamp_cut_max α β e) by done.
  by rewrite vmax_absorb.
Qed.

Lemma window_max_step α β m e M v :
  vle β (vmax α e) = false → within_window α β m e →
  within_window (vmax α e) β M v →
  within_window α β (vmax m M) (vmax e v).
Proof.
  unfold within_window. intros Hcut He Hv.
  rewrite !clamp_raise in Hv by done.
  by rewrite !clamp_vmax, <-He.
Qed.

Lemma window_min_cut α β m e M :
  vlt α β → vle (vmin β e) α = true → within_window α β m e →
  within_window α β (vmin m M) e.
Proof.
  unfold within_window. intros Hab Hcut He.
  rewrite clamp_vmin, <-He, (clamp_cut_min α β e) by done.
  by rewrite vmin_absorb.
Qed.

Lemma window_min_step α β m e M v :
  within_window α β m e →
  within_window α (vmin β e) M v →
  within_window α β (vmin m M) (vmin e v).
Proof.
  unfold within_window. intros He Hv.
  rewrite !clamp_lower in Hv.
  by rewrite !clamp_vmin, <-He.
Qed.

Lemma vlt_of_not_vle a b : vle b a = false → vlt a b.
Proof. unfold vlt. by intros ->. Qed.

(** ** Terminal positions and the length of a game *)

Lemma is_terminal_ok g : grid_ok g → is_terminal g = Ok (terminal g).
Proof.
  intros Hg. unfold is_terminal, terminal.
  rewrite !get_legal_moves_ok by done. simpl.
  destruct (legal_moves g BLACK); [|done]. simpl.
  by destruct (legal_moves g WHITE).
Qed.

Lemma clobbers_reverse g player mv :
  player ≠ EMPTY → clobbers g player mv →
  clobbers g (opponent player) (mv.2, mv.1).
Proof.
  intros Hp (Hsrc & Hcs & Hdst & Hadj & Hcd).
  unfold clobbers. simpl. repeat (split; [done|]). split.
  - unfold orthogonal_neighbour in *. lia.
  - rewrite Hcs. by destruct player.
Qed.

Lemma legal_moves_opponent g player :
  grid_ok g → player ≠ EMPTY →
  legal_moves g player = [] → legal_moves g (opponent player) = [].
Proof.
  intros Hg Hp Hnil. apply elem_of_nil_inv. intros mv Hmv.
  apply elem_of_legal_moves in Hmv; [|done|by destruct player].
  apply clobbers_reverse in Hmv; [|by destruct player].
  replace (opponent (opponent player)) with player in Hmv by (by destruct player).
  apply elem_of_legal_moves in Hmv; [|done..].
  rewrite Hnil in Hmv. by apply elem_of_nil in Hmv.
Qed.

(** Adjacency is symmetric: as long as the game is not over, the side
    to move has a move. *)
Lemma not_terminal_moves g :
  wf_game g → terminal g = false → legal_moves g (current_player g) ≠ [].
Proof.
  intros [Hg Hp] Hterm Hnil. unfold terminal in Hterm.
  pose proof (legal_moves_opponent g _ Hg Hp Hnil) as Hopp.
  destruct (current_player g); [| |done]; simpl in Hopp;
    rewrite Hnil, Hopp in Hterm; done.
Qed.

Lemma sum_count_nonneg (x : cell) (b : grid) :
  0 <= PyList.sum (PyList.count x <$> b).
Proof.
  induction b as [|row b IH]; csimpl; [done|].
  rewrite sum_cons. unfold PyList.count at 1. lia.
Qed.

Lemma stone_count_nonneg g : 0 <= stone_count g.
Proof.
  unfold stone_count.
  pose proof (sum_count_nonneg BLACK (board g)).
  pose proof (sum_count_nonneg WHITE (board g)). lia.
Qed.

Lemma plies_apply_move g mv depth :
  wf_game g → clobbers g (current_player g) mv → depth ≠ 0 →
  plies g depth = S (plies (apply_move g mv) (depth - 1)).
Proof.
  intros Hwf Hmv Hdepth. unfold plies.
  rewrite (stone_count_apply_move g mv) by done.
  pose proof (stone_count_nonneg (apply_move g mv)) as Hge.
  rewrite (stone_count_apply_move g mv) in Hge by done.
  destruct (decide (0 <= depth)).
  - rewrite decide_True by lia. lia.
  - rewrite decide_False by lia. lia.
Qed.

(** ** The search against exhaustive minimax *)

Lemma bind_Ok {A B} (a : A) (f : A → outcome B) : Ok a ≫= f = f a.
Proof. reflexivity. Qed.

Section LoopFacts.
Variable call :
  ClobberGame → Z → value → value → bool → outcome (value * ClobberGame).
Variables (depth : Z) (n : nat) (g : ClobberGame).
Hypothesis Hwf : wf_game g.

Lemma max_loop_window moves acc α β :
  (∀ mv, mv ∈ moves → clobbers g (current_player g) mv) →
  call_ok call depth n g moves false → vlt α β →
  ∃ v, max_loop call depth moves g acc α β = Ok (vmax acc v, g)
     ∧ within_window α β
         (foldl vmax NegInf
            ((λ mv, minimax n (apply_move g mv) false) <$> moves)) v.
Proof.
  revert acc α. induction moves as [|mv rest IH]; intros acc α Hlegal Hcall Hab.
  - exists NegInf. split; [|reflexivity]. simpl. by rewrite vmax_NegInf_r.
  - destruct (Hcall mv α β) as (e & He & Hwin); [by left|done|].
    rewrite fmap_cons, foldl_vmax_cons.
    cbn [max_loop]. fold (apply_move g mv). rewrite He, bind_Ok.
    fold (revert_move (apply_move g mv) mv).
    rewrite undo_make_move by (done || apply Hlegal; by left).
    destruct (vle β (vmax α e)) eqn:Hcut.
    + exists e. split; [done|]. by apply window_max_cut.
    + destruct (IH (vmax acc e) (vmax α e)) as (v & Hv & Hwv).
      * intros mv' Hmv'. apply Hlegal. by right.
      * intros mv' a b Hmv'. apply Hcall. by right.
      * by apply vlt_of_not_vle.
      * exists (vmax e v). split; [by rewrite Hv, vmax_assoc|].
        by apply window_max_step.
Qed.

Lemma min_loop_window moves acc α β :
  (∀ mv, mv ∈ moves → clobbers g (current_player g) mv) →
  call_ok call depth n g moves true → vlt α β →
  ∃ v, min_loop call depth moves g acc α β = Ok (vmin acc v, g)
     ∧ within_window α β
         (foldl vmin PosInf
            ((λ mv, minimax n (apply_move g mv) true) <$> moves)) v.
Proof.
  revert acc β. induction moves as [|mv rest IH]; intros acc β Hlegal Hcall Hab.
  - exists PosInf. split; [|reflexivity]. simpl. by rewrite vmin_PosInf_r.
  - destruct (Hcall mv α β) as (e & He & Hwin); [by left|done|].
    rewrite fmap_cons, foldl_vmin_cons.
    cbn [min_loop]. fold (apply_move g mv). rewrite He, bind_Ok.
    fold (revert_move (apply_move g mv) mv).
    rewrite undo_make_move by (done || apply Hlegal; by left).
    destruct (vle (vmin β e) α) eqn:Hcut.
    + exists e. split; [done|]. by apply window_min_cut.
    + destruct (IH (vmin acc e) (vmin β e)) as (v & Hv & Hwv).
      * intros mv' Hmv'. apply Hlegal. by right.
      * intros mv' a b Hmv'. apply Hcall. by right.
      * by apply vlt_of_not_vle.
      * exists (vmin e v). split; [by rewrite Hv, vmin_assoc|].
        by apply window_min_step.
Qed.

End LoopFacts.

Lemma plies_zero g : plies g 0 = 0%nat.
Proof. reflexivity. Qed.

Lemma plies_of_nat g (d : nat) : plies g (Z.of_nat d) = d.
Proof. unfold plies. rewrite decide_True by lia. lia. Qed.

Lemma minimax_terminal n g mx :
  terminal g = true → minimax n g mx = Int (evaluate g).
Proof. intros Ht. destruct n; simpl; [done|]. by rewrite Ht. Qed.

Lemma alpha_beta_window fuel g depth α β mx :
  wf_game g → (plies g depth < fuel)%nat → vlt α β →
  ∃ v, alpha_beta fuel g depth α β mx = Ok (v, g)
     ∧ within_window α β (minimax (plies g depth) g mx) v.
Proof.
  revert g depth α β mx.
  induction fuel as [|fuel IH]; intros g depth α β mx Hwf Hfuel Hab; [lia|].
  pose proof Hwf as [Hg Hp]. cbn [alpha_beta].
  destruct (decide (depth = 0)) as [->|Hdepth].
  { rewrite bind_Ok. exists (Int (evaluate g)). by rewrite plies_zero. }
  rewrite is_terminal_ok, bind_Ok by done.
  destruct (terminal g) eqn:Hterm.
  { exists (Int (evaluate g)). by rewrite minimax_terminal. }
  rewrite get_legal_moves_ok, bind_Ok by done.
  assert (Hlegal : ∀ mv, mv ∈ legal_moves g (current_player g) →
                         clobbers g (current_player g) mv).
  { intros mv. by apply elem_of_legal_moves. }
  destruct (legal_moves g (current_player g)) as [|mv0 moves] eqn:Hmoves.
  { by destruct (not_terminal_moves g Hwf Hterm). }
  rewrite <-Hmoves in *.
  assert (Hmv0 : mv0 ∈ legal_moves g (current_player g)) by (rewrite Hmoves; left).
  set (n := plies (apply_move g mv0) (depth - 1)).
  assert (Hn : plies g depth = S n) by (apply plies_apply_move; auto).
  assert (Hchild : ∀ mv, mv ∈ legal_moves g (current_player g) →
                         plies (apply_move g mv) (depth - 1) = n).
  { intros mv Hmv.
    pose proof (plies_apply_move g mv depth Hwf (Hlegal mv Hmv) Hdepth) as Hmv'.
    rewrite Hn in Hmv'. by injection Hmv'. }
  assert (Hcall : ∀ mx', call_ok (alpha_beta fuel) depth n g
                           (legal_moves g (current_player g)) mx').
  { intros mx' mv a b Hmv Hlt. rewrite <-(Hchild mv Hmv). apply IH.
    - apply wf_game_apply_move; auto.
    - rewrite (Hchild mv Hmv). lia.
    - done. }
  rewrite Hn. cbn [minimax]. rewrite Hterm. destruct mx; simpl negb.
  - destruct (max_loop_window (alpha_beta fuel) depth n g Hwf
                _ NegInf α β Hlegal (Hcall false) Hab) as (v & Hv & Hwin).
    exists v. by rewrite Hv, vmax_NegInf.
  - destruct (min_loop_window (alpha_beta fuel) depth n g Hwf
                _ PosInf α β Hlegal (Hcall true) Hab) as (v & Hv & Hwin).
    exists v. by rewrite Hv, vmin_PosInf.
Qed.

Lemma alpha_beta_full_window fuel g depth mx :
  wf_game g → (plies g depth < fuel)%nat →
  alpha_beta fuel g depth NegInf PosInf mx
  = Ok (minimax (plies g depth) g mx, g).
Proof.
  intros Hwf Hfuel.
  destruct (alpha_beta_window fuel g depth NegInf PosInf mx)
    as (v & Hv & Hwin); [done..|].
  apply within_window_full in Hwin. by subst v.
Qed.

(** ** Search values are finite *)

Lemma foldl_vmax_Int z (vs : list value) :
  Forall (λ v, ∃ z', v = Int z') vs → ∃ z', foldl vmax (Int z) vs = Int z'.
Proof.
  intros Hvs. revert z. induction Hvs as [|v vs [z' ->] _ IH]; intros z; simpl.
  - by exists z.
  - unfold vmax at 2, vgt, vlt. simpl. case_bool_decide; simpl; apply IH.
Qed.

Lemma foldl_vmin_Int z (vs : list value) :
  Forall (λ v, ∃ z', v = Int z') vs → ∃ z', foldl vmin (Int z) vs = Int z'.
Proof.
  intros Hvs. revert z. induction Hvs as [|v vs [z' ->] _ IH]; intros z; simpl.
  - by exists z.
  - unfold vmin at 2, vlt. simpl. case_bool_decide; simpl; apply IH.
Qed.

Lemma minimax_finite n g mx : wf_game g → ∃ z, minimax n g mx = Int z.
Proof.
  revert g mx. induction n as [|n IH]; intros g mx Hwf; simpl; [by eexists|].
  destruct (terminal g) eqn:Hterm; [by eexists|].
  pose proof (not_terminal_moves g Hwf Hterm) as Hmoves.
  destruct Hwf as [Hg Hp].
  assert (Hvalues : Forall (λ v, ∃ z', v = Int z')
            ((λ mv, minimax n (apply_move g mv) (negb mx))
               <$> legal_moves g (current_player g))).
  { apply Forall_fmap, Forall_forall. intros mv Hmv. simpl. apply IH.
    apply wf_game_apply_move; [done|]. by apply elem_of_legal_moves. }
  destruct (legal_moves g (current_player g)) as [|mv moves]; [done|].
  rewrite fmap_cons in *. apply Forall_cons in Hvalues as [[z Hz] Hvalues].
  destruct mx; simpl in *; rewrite Hz.
  - by apply foldl_vmax_Int.
  - by apply foldl_vmin_Int.
Qed.

(** ** The move selector *)

Lemma plies_after_move g mv depth :
  wf_game g → clobbers g (current_player g) mv →
  (plies (apply_move g mv) depth <= plies g depth)%nat.
Proof.
  intros Hwf Hmv. unfold plies.
  rewrite (stone_count_apply_move g mv) by done. case_decide; lia.
Qed.

Lemma ai_loop_select call depth g moves best_move best_value :
  wf_game g →
  (∀ mv, mv ∈ moves → clobbers g (current_player g) mv) →
  (∀ mv, mv ∈ moves →
     call (apply_move g mv) (depth - 1) NegInf PosInf false
     = Ok ((searched g depth mv).2, apply_move g mv)) →
  ai_loop call depth moves g best_move best_value
  = Ok (select (current_player g) (searched g depth <$> moves)
          best_move best_value, g).
Proof.
  intros Hwf. revert best_move best_value.
  induction moves as [|mv rest IH]; intros best_move best_value Hlegal Hcall;
    [done|].
  cbn [ai_loop]. fold (apply_move g mv). rewrite Hcall, bind_Ok by left.
  fold (revert_move (apply_move g mv) mv).
  rewrite undo_make_move by (done || apply Hlegal; by left).
  rewrite fmap_cons. cbn [select searched snd].
  repeat case_match; apply IH; intros; (apply Hlegal || apply Hcall); by right.
Qed.

Lemma ai_move_ok fuel g depth :
  wf_game g → (plies g (depth - 1) < fuel)%nat →
  ai_move fuel g depth = Ok (choose_move g depth, g).
Proof.
  intros Hwf Hfuel. pose proof Hwf as [Hg Hp]. unfold ai_move, choose_move.
  rewrite get_legal_moves_ok, bind_Ok by done.
  apply ai_loop_select; [done| |].
  - intros mv. by apply elem_of_legal_moves.
  - intros mv Hmv. apply elem_of_legal_moves in Hmv; [|done..].
    apply alpha_beta_full_window; [by apply wf_game_apply_move|].
    pose proof (plies_after_move g mv (depth - 1) Hwf Hmv). lia.
Qed.

Lemma select_origin player candidates best_move best_value :
  select player candidates best_move best_value = best_move
  ∨ ∃ mv, select player candidates best_move best_value = Some mv
          ∧ mv ∈ candidates.*1.
Proof.
  revert best_move best_value.
  induction candidates as [|[mv v] rest IH]; intros best_move best_value;
    [by left|].
  cbn [select]. rewrite fmap_cons. simpl.
  repeat case_match;
    match goal with
    | |- context [select player rest ?bm ?bv] =>
      destruct (IH bm bv) as [->|(mv' & -> & Hmv')]
    end;
    try (by left);
    right; eexists; split; try done; (by left) || (by right).
Qed.

Lemma select_finds player candidates :
  player ≠ EMPTY → candidates ≠ [] →
  Forall (λ c, ∃ z, c.2 = Int z) candidates →
  is_Some (select player candidates None
             (if decide (player = BLACK) then NegInf else PosInf)).
Proof.
  intros Hp Hne Hint.
  destruct candidates as [|[mv v] rest]; [done|].
  apply Forall_cons in Hint as [[z Hz] _]. simpl in Hz. subst v.
  cbn [select].
  destruct player; [| |done]; simpl;
    match goal with
    | |- context [select ?p rest ?bm ?bv] =>
      destruct (select_origin p rest bm bv) as [->|(mv' & -> & _)]
    end; by eexists.
Qed.

(** ** The initial board and the reachable states *)

Lemma foldl_snoc {A B} (step : list B → A → list B) (f : A → B)
    (l : list A) (acc : list B) :
  (∀ acc x, step acc x = acc ++ [f x]) →
  foldl step acc l = acc ++ (f <$> l).
Proof.
  intros Hstep. revert acc. induction l as [|x l IH]; intros acc; simpl.
  - by rewrite app_nil_r.
  - by rewrite IH, Hstep, <-app_assoc.
Qed.

Lemma init_board_rows rows cols :
  init_board rows cols
  = (λ i, (λ j, if decide ((i + j) mod 2 = 0) then BLACK else WHITE)
            <$> PyList.range cols)
      <$> PyList.range rows.
Proof.
  unfold init_board.
  rewrite (foldl_snoc _
    (λ i, (λ j, if decide ((i + j) mod 2 = 0) then BLACK else WHITE)
            <$> PyList.range cols)); [done|].
  intros board i. f_equal. f_equal.
  rewrite (foldl_snoc _
    (λ j, if decide ((i + j) mod 2 = 0) then BLACK else WHITE)); [done|].
  intros row j. by case_decide.
Qed.

Lemma init_board_cell rows cols i j :
  0 <= i < rows → 0 <= j < cols →
  get_cell (init_board rows cols) i j
  = Some (if decide ((i + j) mod 2 = 0) then BLACK else WHITE).
Proof.
  intros Hi Hj. rewrite get_cell_nonneg, init_board_rows by lia.
  unfold cell_at, PyList.range.
  rewrite list_lookup_fmap, lookup_seqZ_lt by lia. simpl.
  rewrite list_lookup_fmap, lookup_seqZ_lt by lia. simpl.
  by rewrite !Z.add_0_l, !Z2Nat.id by lia.
Qed.

Lemma grid_ok_new_game rows cols :
  0 <= rows → 0 <= cols → grid_ok (new_game rows cols).
Proof.
  intros Hrows Hcols. unfold grid_ok. simpl. rewrite init_board_rows.
  unfold PyList.range. split.
  - rewrite length_fmap, length_seqZ. lia.
  - apply Forall_fmap, Forall_forall. intros i _. simpl.
    rewrite length_fmap, length_seqZ. lia.
Qed.

Lemma reachable_wf g : reachable g → wf_game g.
Proof.
  induction 1 as [rows cols Hrows Hcols|g moves mv _ [Hg Hp] Hmoves Hmv].
  - split; [apply grid_ok_new_game; lia|done].
  - rewrite get_legal_moves_ok in Hmoves by done. simplify_eq.
    apply wf_game_apply_move; [done|]. by apply elem_of_legal_moves.
Qed.

(** ** Subscripts beyond either end *)

Lemma position_in_range {A} (l : list A) i p :
  PyList.position l i = Some p →
  - Z.of_nat (length l) <= i < Z.of_nat (length l).
Proof.
  unfold PyList.position. intros Hp. repeat case_decide; simplify_eq; lia.
Qed.

Lemma get_cell_in_range g i j :
  grid_ok g → is_Some (get_cell (board g) i j) →
  (- rows g <= i < rows g) ∧ (- cols g <= j < cols g).
Proof.
  intros [Hrows Hcols] [c Hc]. unfold get_cell, PyList.getitem in Hc.
  destruct (PyList.position (board g) i) as [p|] eqn:Hp; [|done].
  simpl in Hc. destruct (board g !! p) as [row|] eqn:Hrow; [|done].
  simpl in Hc. destruct (PyList.position row j) as [q|] eqn:Hq; [|done].
  apply position_in_range in Hp, Hq.
  rewrite Forall_lookup in Hcols. specialize (Hcols _ _ Hrow). simpl in Hcols.
  lia.
Qed.

Lemma set_cell_in_range g i j c :
  grid_ok g → is_Some (set_cell (board g) i j c) →
  (- rows g <= i < rows g) ∧ (- cols g <= j < cols g).
Proof.
  intros [Hrows Hcols] [b Hb]. unfold set_cell, PyList.getitem in Hb.
  destruct (PyList.position (board g) i) as [p|] eqn:Hp; [|done].
  simpl in Hb. destruct (board g !! p) as [row|] eqn:Hrow; [|done].
  simpl in Hb. destruct (PyList.setitem row j c) as [row'|] eqn:Hset; [|done].
  unfold PyList.setitem in Hset.
  destruct (PyList.position row j) as [q|] eqn:Hq; [|done].
  apply position_in_range in Hp, Hq.
  rewrite Forall_lookup in Hcols. specialize (Hcols _ _ Hrow). simpl in Hcols.
  lia.
Qed.

(** Where Python does raise [IndexError], at a subscript below [-len] or
    from [len] on, [make_move] rejects the move as C4 asks. *)
Lemma make_move_rejects_index_error g i j ni nj :
  grid_ok g →
  ¬ (- rows g <= i < rows g ∧ - cols g <= j < cols g
     ∧ - rows g <= ni < rows g ∧ - cols g <= nj < cols g) →
  ∃ msg, make_move g ((i, j), (ni, nj)) = (g, Printed msg).
Proof.
  intros Hg Hout. unfold make_move.
  destruct (get_cell (board g) i j) as [c|] eqn:Hsrc; [|by eexists].
  case_decide; [by eexists|].
  destruct (set_cell (board g) ni nj c) as [b1|] eqn:Hdst; [|by eexists].
  destruct Hout.
  pose proof (get_cell_in_range g i j Hg (mk_is_Some _ _ Hsrc)).
  pose proof (set_cell_in_range g ni nj c Hg (mk_is_Some _ _ Hdst)). lia.
Qed.

(** * The claims *)

(** ** Initialization *)

(** Claim C9. On a grid of at least 2x2 the board built at construction
    has [rows] rows of [cols] cells, and every cell [(i, j)] holds a
    stone: BLACK if and only if [i + j] is even, WHITE otherwise, never
    EMPTY. *)
Theorem init_board_checkerboard rows cols :
  2 <= rows → 2 <= cols →
  grid_ok (new_game rows cols)
  ∧ ∀ i j, 0 <= i < rows → 0 <= j < cols →
      ∃ c, get_cell (board (new_game rows cols)) i j = Some c
         ∧ (c = BLACK ↔ Z.Even (i + j))
         ∧ (c ≠ BLACK → c = WHITE)
         ∧ c ≠ EMPTY.
Proof.
  intros Hrows Hcols. split; [apply grid_ok_new_game; lia|].
  intros i j Hi Hj. simpl. rewrite init_board_cell by done.
  eexists. split; [done|]. rewrite <-Z.even_spec, Zmod_even.
  destruct (Z.even (i + j)); simpl; repeat split; done.
Qed.

Lemma init_board_checkerboard_witness :
  grid_ok (new_game 2 3)
  ∧ ∀ i j, 0 <= i < 2 → 0 <= j < 3 →
      ∃ c, get_cell (board (new_game 2 3)) i j = Some c
         ∧ (c = BLACK ↔ Z.Even (i + j))
         ∧ (c ≠ BLACK → c = WHITE)
         ∧ c ≠ EMPTY.
Proof. apply (init_board_checkerboard 2 3); lia. Defined.

(** ** Move generation *)

(** Claim C6. On a board of the declared shape, for BLACK and for WHITE,
    [get_legal_moves] returns exactly the moves from a stone of the
    player onto an in-bounds orthogonal neighbour holding a stone of the
    opponent, each once, source cells in row-major order and, from one
    source, in the order up, down, left, right. *)
Theorem get_legal_moves_sound_complete_ordered g player :
  grid_ok g → player ≠ EMPTY →
  ∃ moves, get_legal_moves g player = Ok moves
         ∧ (∀ mv, mv ∈ moves ↔ clobbers g player mv)
         ∧ StronglySorted generated_before moves.
Proof.
  intros Hg Hp. exists (legal_moves g player). split; [|split].
  - by apply get_legal_moves_ok.
  - intros mv. by apply elem_of_legal_moves.
  - apply legal_moves_sorted.
Qed.

Lemma get_legal_moves_sound_complete_ordered_witness :
  ∃ moves, get_legal_moves (new_game 2 3) WHITE = Ok moves
         ∧ (∀ mv, mv ∈ moves ↔ clobbers (new_game 2 3) WHITE mv)
         ∧ StronglySorted generated_before moves.
Proof.
  apply (get_legal_moves_sound_complete_ordered (new_game 2 3) WHITE).
  - apply (bool_decide_unpack _). vm_compute. exact I.
  - discriminate.
Defined.

(** ** Making and undoing moves *)

(** Claim C1. In every reachable state, for every move [get_legal_moves]
    offers the player to move, [make_move] followed by [undo_move] gives
    back the object it started from: the same board, the same player to
    move. *)
Theorem undo_move_reverses_make_move g moves mv :
  reachable g →
  get_legal_moves g (current_player g) = Ok moves → mv ∈ moves →
  (undo_move (make_move g mv).1 mv).1 = g.
Proof.
  intros Hg%reachable_wf Hmoves Hmv. pose proof Hg as [Hok Hp].
  rewrite get_legal_moves_ok in Hmoves by done. simplify_eq.
  apply (undo_make_move g mv Hg). by apply elem_of_legal_moves.
Qed.

Lemma undo_move_reverses_make_move_witness :
  (undo_move (make_move (new_game 2 2) ((0, 0), (0, 1))).1 ((0, 0), (0, 1))).1
  = new_game 2 2.
Proof.
  apply (undo_move_reverses_make_move (new_game 2 2)
           [((0, 0), (1, 0)); ((0, 0), (0, 1)); ((1, 1), (0, 1)); ((1, 1), (1, 0))]).
  - apply reachable_new; lia.
  - reflexivity.
  - apply list_elem_of_In. simpl. auto.
Defined.

(** Claim C8. For every game state and every legal move, [make_move]
    lowers the number of stones on the board by exactly one, and the
    matching [undo_move] brings it back to what it was. *)
Theorem stone_count_make_undo g moves mv :
  wf_game g →
  get_legal_moves g (current_player g) = Ok moves → mv ∈ moves →
  stone_count (make_move g mv).1 = stone_count g - 1
  ∧ stone_count (undo_move (make_move g mv).1 mv).1 = stone_count g.
Proof.
  intros Hg Hmoves Hmv. pose proof Hg as [Hok Hp].
  rewrite get_legal_moves_ok in Hmoves by done. simplify_eq.
  apply elem_of_legal_moves in Hmv; [|done..]. split.
  - by apply stone_count_apply_move.
  - f_equal. by apply undo_make_move.
Qed.

Lemma stone_count_make_undo_witness :
  stone_count (make_move (new_game 2 3) ((0, 0), (1, 0))).1
  = stone_count (new_game 2 3) - 1
  ∧ stone_count
      (undo_move (make_move (new_game 2 3) ((0, 0), (1, 0))).1 ((0, 0), (1, 0))).1
    = stone_count (new_game 2 3).
Proof.
  apply (stone_count_make_undo (new_game 2 3)
           [((0, 0), (1, 0)); ((0, 0), (0, 1)); ((0, 2), (1, 2)); ((0, 2), (0, 1));
            ((1, 1), (0, 1)); ((1, 1), (1, 0)); ((1, 1), (1, 2))]).
  - apply (bool_decide_unpack _). vm_compute. exact I.
  - reflexivity.
  - apply list_elem_of_In. simpl. auto.
Defined.

(** Claim C7. A move within the board whose source cell does not hold a
    stone of the player to move is rejected: [make_move] prints the
    complaint and leaves the object as it was. *)
Theorem make_move_rejects_foreign_source g i j ni nj :
  grid_ok g → in_bounds g (i, j) → in_bounds g (ni, nj) →
  get_cell (board g) i j ≠ Some (current_player g) →
  make_move g ((i, j), (ni, nj)) = (g, Printed msg_not_yours).
Proof.
  intros Hg [Hi Hj] _ Hsrc. unfold make_move.
  destruct (grid_ok_cell g i j Hg Hi Hj) as [c Hc]. rewrite Hc in *.
  rewrite decide_True; [done|]. congruence.
Qed.

Lemma make_move_rejects_foreign_source_witness :
  make_move (new_game 2 2) ((0, 1), (0, 0))
  = (new_game 2 2, Printed msg_not_yours).
Proof.
  apply (make_move_rejects_foreign_source (new_game 2 2) 0 1 0 0).
  - apply (bool_decide_unpack _). vm_compute. exact I.
  - unfold in_bounds. simpl. lia.
  - unfold in_bounds. simpl. lia.
  - discriminate.
Defined.

(** Claim C4, at the input where the code departs from it. With a
    negative column the subscript wraps around instead of raising
    [IndexError]: the move is carried out, nothing is printed, and the
    board and the player to move have changed. *)
Theorem make_move_negative_index_wraps :
  make_move (new_game 2 2) ((0, 0), (0, -1))
  = ({| rows := 2; cols := 2;
        board := [[EMPTY; BLACK]; [WHITE; BLACK]];
        current_player := WHITE |}, Quiet).
Proof. reflexivity. Qed.

(** ** The search *)

(** Claim C2. On every game state, small boards such as 2x3 included, and
    for every depth, depths up to 4 included, [alpha_beta] called with
    the full window returns the value of exhaustive minimax of the same
    depth on the same state, and leaves the object as it found it. *)
Theorem alpha_beta_equals_minimax fuel g (depth : nat) maximizing :
  wf_game g → (depth < fuel)%nat →
  alpha_beta fuel g (Z.of_nat depth) NegInf PosInf maximizing
  = Ok (minimax depth g maximizing, g).
Proof.
  intros Hwf Hfuel. rewrite <-(plies_of_nat g depth) at 2.
  apply alpha_beta_full_window; [done|]. by rewrite plies_of_nat.
Qed.

Lemma alpha_beta_equals_minimax_witness :
  alpha_beta 5 (new_game 2 3) 4 NegInf PosInf true
  = Ok (minimax 4 (new_game 2 3) true, new_game 2 3).
Proof.
  apply (alpha_beta_equals_minimax 5 (new_game 2 3) 4 true).
  - apply (bool_decide_unpack _). vm_compute. exact I.
  - lia.
Defined.






(** ** The move selector *)

Lemma searched_finite g depth moves :
  wf_game g → (∀ mv, mv ∈ moves → clobbers g (current_player g) mv) →
  Forall (λ c, ∃ z, c.2 = Int z) (searched g depth <$> moves).
Proof.
  intros [Hg Hp] Hlegal. apply Forall_fmap, Forall_forall. intros mv Hmv.
  simpl. apply minimax_finite, wf_game_apply_move; auto.
Qed.

Lemma fst_searched g depth moves : (searched g depth <$> moves).*1 = moves.
Proof. rewrite <-list_fmap_compose. apply list_fmap_id. Qed.

(** Claim C3. For every game state and every depth of at least 1,
    [ai_move] returns [None] if and only if the player to move has no
    legal move; the move it returns otherwise is one of the legal moves. *)
Theorem ai_move_none_iff_no_legal_move fuel g depth :
  wf_game g → 1 <= depth → (Z.to_nat depth <= fuel)%nat →
  ∃ r moves,
    ai_move fuel g depth = Ok (r, g)
    ∧ get_legal_moves g (current_player g) = Ok moves
    ∧ (r = None ↔ moves = [])
    ∧ (∀ mv, r = Some mv → mv ∈ moves).
Proof.
  intros Hwf Hdepth Hfuel. pose proof Hwf as [Hg Hp].
  exists (choose_move g depth), (legal_moves g (current_player g)).
  assert (Hlegal : ∀ mv, mv ∈ legal_moves g (current_player g) →
                         clobbers g (current_player g) mv).
  { intros mv. by apply elem_of_legal_moves. }
  split; [|split; [|split]].
  - apply ai_move_ok; [done|]. unfold plies. rewrite decide_True by lia. lia.
  - by apply get_legal_moves_ok.
  - unfold choose_move. split.
    + intros Hnone. destruct (legal_moves g (current_player g)) eqn:Hmoves; [done|].
      rewrite <-Hmoves in *.
      destruct (select_finds (current_player g)
                  (searched g depth <$> legal_moves g (current_player g)))
        as [mv Hsome]; [done|by rewrite Hmoves|by apply searched_finite|].
      congruence.
    + by intros ->.
  - intros mv Hmv. unfold choose_move in Hmv.
    match type of Hmv with
    | select ?p ?cs ?bm ?bv = _ =>
      destruct (select_origin p cs bm bv) as [Hsel|(mv' & Hsel & Hin)]
    end; [congruence|].
    rewrite fst_searched in Hin. congruence.
Qed.

Lemma ai_move_none_iff_no_legal_move_witness :
  ∃ r moves,
    ai_move 5 (new_game 2 3) 5 = Ok (r, new_game 2 3)
    ∧ get_legal_moves (new_game 2 3) (current_player (new_game 2 3)) = Ok moves
    ∧ (r = None ↔ moves = [])
    ∧ (∀ mv, r = Some mv → mv ∈ moves).
Proof.
  apply (ai_move_none_iff_no_legal_move 5 (new_game 2 3) 5).
  - apply (bool_decide_unpack _). vm_compute. exact I.
  - lia.
  - lia.
Defined.

(** * Further properties of the game model *)

(** ** What a move does to the board *)

Lemma get_cell_put_in_bounds (b : list (list cell)) i j ni nj v :
  0 <= i → 0 <= j → 0 <= ni → 0 <= nj →
  is_Some (cell_at b (Z.to_nat ni) (Z.to_nat nj)) →
  get_cell (put b (Z.to_nat ni) (Z.to_nat nj) v) i j
  = if decide ((ni, nj) = (i, j)) then Some v else get_cell b i j.
Proof.
  intros Hi Hj Hni Hnj Hsome. rewrite !get_cell_nonneg, cell_at_put by done.
  destruct (decide ((ni, nj) = (i, j))) as [Heq|Hne].
  - simplify_eq. by rewrite decide_True.
  - rewrite decide_False; [done|]. intros [? ?]. apply Hne. f_equal; lia.
Qed.

(** Property X1. On a game state, [make_move] with a move the generator
    offers the player to move prints nothing, empties the source cell,
    puts the mover's stone on the destination, leaves every other cell
    and the dimensions as they were, and passes the turn to the
    opponent. *)
Theorem make_move_effect g moves mv :
  wf_game g →
  get_legal_moves g (current_player g) = Ok moves → mv ∈ moves →
  ∃ g', make_move g mv = (g', Quiet)
      ∧ rows g' = rows g ∧ cols g' = cols g
      ∧ current_player g' = opponent (current_player g)
      ∧ get_cell (board g') mv.1.1 mv.1.2 = Some EMPTY
      ∧ get_cell (board g') mv.2.1 mv.2.2 = Some (current_player g)
      ∧ ∀ i j, in_bounds g (i, j) → (i, j) ≠ mv.1 → (i, j) ≠ mv.2 →
          get_cell (board g') i j = get_cell (board g) i j.
Proof.
  intros [Hg Hp] Hmoves Hmv.
  rewrite get_legal_moves_ok in Hmoves by done. simplify_eq.
  apply elem_of_legal_moves in Hmv; [|done..].
  pose proof (clobbers_distinct _ _ _ Hmv) as Hne.
  destruct Hmv as (Hsrc & Hcs & Hdst & _ & Hcd).
  destruct mv as [[i j] [ni nj]]. simpl in *.
  destruct Hsrc as [Hi Hj], Hdst as [Hni Hnj]. simpl in *.
  pose proof (grid_ok_cell_at g ni nj Hg Hni Hnj) as Hdst'.
  pose proof (grid_ok_cell_at g i j Hg Hi Hj) as Hsrc'.
  assert (Hsrc'' : is_Some (cell_at (put (board g) (Z.to_nat ni) (Z.to_nat nj)
                                        (current_player g))
                               (Z.to_nat i) (Z.to_nat j))).
  { rewrite cell_at_put by done. by case_decide. }
  eexists. split; [by apply make_move_in_bounds|]. simpl.
  split; [done|]. split; [done|]. split; [by destruct (current_player g)|].
  split; [|split].
  - rewrite get_cell_put_in_bounds by (done || lia). by rewrite decide_True.
  - rewrite !get_cell_put_in_bounds by (done || lia).
    rewrite decide_False by congruence. by rewrite decide_True.
  - intros i' j' [Hi' Hj'] Hns Hnd. simpl in *.
    rewrite !get_cell_put_in_bounds by (done || lia).
    by rewrite !decide_False by congruence.
Qed.

Lemma make_move_effect_witness :
  ∃ g', make_move (new_game 2 2) ((0, 0), (0, 1)) = (g', Quiet)
      ∧ rows g' = 2 ∧ cols g' = 2
      ∧ current_player g' = WHITE
      ∧ get_cell (board g') 0 0 = Some EMPTY
      ∧ get_cell (board g') 0 1 = Some BLACK
      ∧ ∀ i j, in_bounds (new_game 2 2) (i, j) → (i, j) ≠ (0, 0) → (i, j) ≠ (0, 1) →
          get_cell (board g') i j = get_cell (board (new_game 2 2)) i j.
Proof.
  apply (make_move_effect (new_game 2 2) [((0, 0), (1, 0)); ((0, 0), (0, 1)); ((1, 1), (0, 1)); ((1, 1), (1, 0))] ((0, 0), (0, 1))).
  - apply (bool_decide_unpack _). vm_compute. exact I.
  - reflexivity.
  - apply list_elem_of_In. simpl. auto.
Defined.

(** ** Rejected moves leave no trace *)

Lemma position_length {A B} (l : list A) (l' : list B) i :
  length l = length l' → PyList.position l i = PyList.position l' i.
Proof. unfold PyList.position. by intros ->. Qed.

Lemma position_lt {A} (l : list A) i p :
  PyList.position l i = Some p → (p < length l)%nat.
Proof.
  unfold PyList.position. intros Hp. repeat case_decide; simplify_eq; lia.
Qed.

Lemma get_cell_is_Some_position (b : list (list cell)) i j :
  is_Some (get_cell b i j)
  ↔ ∃ p row q, PyList.position b i = Some p ∧ b !! p = Some row
               ∧ PyList.position row j = Some q.
Proof.
  unfold get_cell, PyList.getitem. split.
  - intros [c Hc].
    destruct (PyList.position b i) as [p|] eqn:Hp; [|done]. simpl in Hc.
    destruct (b !! p) as [row|] eqn:Hrow; [|done]. simpl in Hc.
    destruct (PyList.position row j) as [q|] eqn:Hq; [|done].
    by exists p, row, q.
  - intros (p & row & q & -> & Hrow & Hq). simpl. rewrite Hrow. simpl.
    rewrite Hq. simpl. apply lookup_lt_is_Some_2. apply (position_lt row j), Hq.
Qed.

Lemma set_cell_Some (b : list (list cell)) i j v :
  is_Some (get_cell b i j) →
  ∃ p row q, PyList.position b i = Some p ∧ b !! p = Some row
             ∧ PyList.position row j = Some q
             ∧ set_cell b i j v = Some (<[p := <[q := v]> row]> b).
Proof.
  intros (p & row & q & Hp & Hrow & Hq)%get_cell_is_Some_position.
  exists p, row, q. repeat (split; [done|]).
  unfold set_cell, PyList.getitem, PyList.setitem.
  rewrite Hp. cbn -[PyList.position]. rewrite Hrow. cbn -[PyList.position].
  by rewrite Hq.
Qed.

Lemma set_cell_is_Some (b : list (list cell)) i j v :
  is_Some (set_cell b i j v) → is_Some (get_cell b i j).
Proof.
  intros [b' Hb']. apply get_cell_is_Some_position.
  unfold set_cell, PyList.getitem, PyList.setitem in Hb'.
  destruct (PyList.position b i) as [p|] eqn:Hp; [|done]. simpl in Hb'.
  destruct (b !! p) as [row|] eqn:Hrow; [|done]. simpl in Hb'.
  destruct (PyList.position row j) as [q|] eqn:Hq; [|done].
  by exists p, row, q.
Qed.

Lemma get_cell_same_shape (b b' : list (list cell)) i j :
  same_shape b b' → is_Some (get_cell b i j) → is_Some (get_cell b' i j).
Proof.
  intros Hshape (p & row & q & Hp & Hrow & Hq)%get_cell_is_Some_position.
  apply get_cell_is_Some_position.
  assert (Hlen : length b = length b').
  { rewrite <-(length_fmap length b), Hshape. apply length_fmap. }
  assert (Hrow' : (length <$> b') !! p = Some (length row)).
  { rewrite <-Hshape, list_lookup_fmap, Hrow. done. }
  rewrite list_lookup_fmap in Hrow'.
  destruct (b' !! p) as [row'|] eqn:Hrow''; [|done]. simplify_eq/=.
  exists p, row', q. split; [by rewrite <-(position_length b)|].
  split; [done|]. by rewrite <-(position_length row).
Qed.

Lemma set_cell_same_shape (b b' : list (list cell)) i j v :
  set_cell b i j v = Some b' → same_shape b b'.
Proof.
  intros Hb'.
  destruct (set_cell_Some b i j v) as (p & row & q & _ & Hrow & _ & Hset).
  { apply (set_cell_is_Some b i j v). by rewrite Hb'. }
  rewrite Hb' in Hset. simplify_eq. unfold same_shape.
  rewrite list_fmap_insert, length_insert. symmetry. apply list_insert_id.
  by rewrite list_lookup_fmap, Hrow.
Qed.

(** Property X2. Whatever the object and the move, coordinates out of
    range included, a call of [make_move] or [undo_move] that prints a
    message has changed nothing: no handler is reached after a partial
    update. *)
Theorem rejected_moves_change_nothing g mv g' msg :
  make_move g mv = (g', Printed msg) ∨ undo_move g mv = (g', Printed msg) →
  g' = g.
Proof.
  destruct mv as [[i j] [ni nj]]. intros [Hmake|Hundo].
  - revert Hmake. unfold make_move.
    destruct (get_cell (board g) i j) as [c|] eqn:Hsrc; [|by intros [= <-]].
    case_decide; [by intros [= <-]|].
    destruct (set_cell (board g) ni nj c) as [b1|] eqn:Hdst; [|by intros [= <-]].
    destruct (set_cell_Some b1 i j EMPTY) as (? & ? & ? & _ & _ & _ & ->);
      [|done].
    apply (get_cell_same_shape (board g)); [by eapply set_cell_same_shape|].
    by rewrite Hsrc.
  - revert Hundo. unfold undo_move.
    destruct (get_cell (board g) ni nj) as [c|] eqn:Hdst; [|by intros [= <-]].
    destruct (set_cell (board g) i j c) as [b1|] eqn:Hsrc; [|by intros [= <-]].
    pose proof (set_cell_same_shape _ _ _ _ _ Hsrc) as Hshape.
    destruct (get_cell b1 i j) as [c1|] eqn:Hc1.
    + destruct (set_cell_Some b1 ni nj (if decide (c1 = BLACK) then WHITE else BLACK))
        as (? & ? & ? & _ & _ & _ & ->); [|done].
      apply (get_cell_same_shape (board g)); [done|]. by rewrite Hdst.
    + assert (is_Some (get_cell b1 i j)) as [? ?]; [|congruence].
      apply (get_cell_same_shape (board g)); [done|].
      apply (set_cell_is_Some _ _ _ c). by rewrite Hsrc.
Qed.

Lemma rejected_moves_change_nothing_witness :
  new_game 2 2 = new_game 2 2.
Proof.
  apply (rejected_moves_change_nothing (new_game 2 2) ((0, 0), (0, 7))
           (new_game 2 2) msg_invalid_move).
  left. reflexivity.
Defined.

(** ** What the move methods do not check *)

(** Property X3. For a move within the board [make_move] checks the
    owner of the source cell and nothing else: it carries the move out
    exactly when the source holds a stone of the player to move,
    whatever the destination holds and wherever on the board it is. *)
Theorem make_move_checks_only_ownership g i j ni nj :
  grid_ok g → in_bounds g (i, j) → in_bounds g (ni, nj) →
  (∃ g', make_move g ((i, j), (ni, nj)) = (g', Quiet))
  ↔ get_cell (board g) i j = Some (current_player g).
Proof.
  intros Hg Hsrc Hdst. split.
  - intros [g' Hmake]. unfold make_move in Hmake.
    destruct (get_cell (board g) i j) as [c|]; [|done].
    case_decide as Hc; [done|].
    by destruct (decide (c = current_player g)) as [->|].
  - intros Hc. eexists. by apply make_move_in_bounds.
Qed.

Lemma make_move_checks_only_ownership_witness :
  (∃ g', make_move (new_game 2 2) ((0, 0), (1, 1)) = (g', Quiet))
  ↔ get_cell (board (new_game 2 2)) 0 0 = Some (current_player (new_game 2 2)).
Proof.
  apply (make_move_checks_only_ownership (new_game 2 2) 0 0 1 1).
  - apply (bool_decide_unpack _). vm_compute. exact I.
  - unfold in_bounds. simpl. lia.
  - unfold in_bounds. simpl. lia.
Defined.

(** Property X4. For a move within the board [undo_move] checks nothing:
    it copies the destination cell to the source, puts on the
    destination WHITE if the copied cell is BLACK and BLACK otherwise,
    also when the copied cell is EMPTY, leaves the other cells alone and
    passes the turn. *)
Theorem undo_move_effect g i j ni nj :
  grid_ok g → in_bounds g (i, j) → in_bounds g (ni, nj) →
  ∃ g' c,
    undo_move g ((i, j), (ni, nj)) = (g', Quiet)
    ∧ get_cell (board g) ni nj = Some c
    ∧ get_cell (board g') ni nj
      = Some (if decide (c = BLACK) then WHITE else BLACK)
    ∧ ((i, j) ≠ (ni, nj) → get_cell (board g') i j = Some c)
    ∧ (∀ i' j', in_bounds g (i', j') → (i', j') ≠ (i, j) → (i', j') ≠ (ni, nj) →
         get_cell (board g') i' j' = get_cell (board g) i' j')
    ∧ current_player g'
      = (if decide (current_player g = BLACK) then WHITE else BLACK).
Proof.
  intros Hg Hsrc Hdst. pose proof Hsrc as [Hi Hj]. pose proof Hdst as [Hni Hnj].
  simpl in *.
  destruct (grid_ok_cell g ni nj Hg Hni Hnj) as [c Hc].
  pose proof (grid_ok_cell_at g ni nj Hg Hni Hnj) as Hdst'.
  pose proof (grid_ok_cell_at g i j Hg Hi Hj) as Hsrc'.
  assert (Hdst'' : is_Some (cell_at (put (board g) (Z.to_nat i) (Z.to_nat j) c)
                               (Z.to_nat ni) (Z.to_nat nj))).
  { rewrite cell_at_put by done. by case_decide. }
  eexists _, c. split; [by apply undo_move_in_bounds|]. simpl.
  split; [done|]. split; [|split; [|split; [|done]]].
  - rewrite get_cell_put_in_bounds by (done || lia). by rewrite decide_True.
  - intros Hne. rewrite !get_cell_put_in_bounds by (done || lia).
    rewrite decide_False by congruence. by rewrite decide_True.
  - intros i' j' [Hi' Hj'] Hns Hnd. simpl in *.
    rewrite !get_cell_put_in_bounds by (done || lia).
    by rewrite !decide_False by congruence.
Qed.

Lemma undo_move_effect_witness :
  ∃ g' c,
    undo_move (new_game 2 2) ((0, 0), (0, 1)) = (g', Quiet)
    ∧ get_cell (board (new_game 2 2)) 0 1 = Some c
    ∧ get_cell (board g') 0 1 = Some (if decide (c = BLACK) then WHITE else BLACK)
    ∧ ((0, 0) ≠ (0, 1) → get_cell (board g') 0 0 = Some c)
    ∧ (∀ i' j', in_bounds (new_game 2 2) (i', j') →
         (i', j') ≠ (0, 0) → (i', j') ≠ (0, 1) →
         get_cell (board g') i' j' = get_cell (board (new_game 2 2)) i' j')
    ∧ current_player g'
      = (if decide (current_player (new_game 2 2) = BLACK) then WHITE else BLACK).
Proof.
  apply (undo_move_effect (new_game 2 2) 0 0 0 1).
  - apply (bool_decide_unpack _). vm_compute. exact I.
  - unfold in_bounds. simpl. lia.
  - unfold in_bounds. simpl. lia.
Defined.

(** ** The evaluation along a game *)

Lemma count_apply_move g mv (x : cell) :
  wf_game g → clobbers g (current_player g) mv → x ≠ EMPTY →
  PyList.sum (PyList.count x <$> board (apply_move g mv))
  = PyList.sum (PyList.count x <$> board g)
    - (if decide (opponent (current_player g) = x) then 1 else 0).
Proof.
  intros [Hg Hp] Hmv Hx. pose proof (clobbers_distinct _ _ _ Hmv) as Hne.
  rewrite apply_move_clobbers by done.
  destruct Hmv as (Hsrc & Hcs & Hdst & _ & Hcd).
  pose proof (to_nat_coord_ne g _ _ Hsrc Hdst Hne) as Hne'.
  destruct Hsrc as [Hi Hj], Hdst as [Hni Hnj].
  rewrite get_cell_nonneg in Hcs, Hcd by lia. simpl.
  rewrite (sum_count_put _ _ _ _ (current_player g) EMPTY).
  - rewrite (sum_count_put _ _ _ _ (opponent (current_player g))) by done.
    rewrite (decide_False (P := EMPTY = x)) by done. lia.
  - rewrite cell_at_put by (by rewrite Hcd).
    rewrite decide_False; [done|]. intros [? ?]. apply Hne'. congruence.
Qed.

(** Property X5. After a legal move the evaluation, taken as always from
    the side then to move, is the negated evaluation before the move
    minus one: the captured stone is the only change in material. *)
Theorem evaluate_after_move g moves mv :
  wf_game g →
  get_legal_moves g (current_player g) = Ok moves → mv ∈ moves →
  evaluate (make_move g mv).1 = - evaluate g - 1.
Proof.
  intros Hwf Hmoves Hmv. pose proof Hwf as [Hg Hp].
  rewrite get_legal_moves_ok in Hmoves by done. simplify_eq.
  apply elem_of_legal_moves in Hmv; [|done..].
  fold (apply_move g mv). unfold evaluate.
  rewrite !(count_apply_move g mv) by done.
  rewrite apply_move_clobbers by done. simpl.
  destruct (current_player g); [| |done]; simpl; repeat case_decide; try done; lia.
Qed.

Lemma evaluate_after_move_witness :
  evaluate (make_move (new_game 2 3) ((1, 1), (1, 2))).1
  = - evaluate (new_game 2 3) - 1.
Proof.
  apply (evaluate_after_move (new_game 2 3)
           [((0, 0), (1, 0)); ((0, 0), (0, 1)); ((0, 2), (1, 2)); ((0, 2), (0, 1));
            ((1, 1), (0, 1)); ((1, 1), (1, 0)); ((1, 1), (1, 2))]
           ((1, 1), (1, 2))).
  - apply (bool_decide_unpack _). vm_compute. exact I.
  - reflexivity.
  - apply list_elem_of_In. simpl. auto 10.
Defined.

(** ** Terminal positions *)

Lemma terminal_iff_stuck g :
  wf_game g →
  is_terminal g = Ok true ↔ get_legal_moves g (current_player g) = Ok [].
Proof.
  intros Hwf. pose proof Hwf as [Hg Hp].
  rewrite is_terminal_ok, get_legal_moves_ok by done. split.
  - intros [= Hterm]. f_equal. unfold terminal in Hterm.
    apply andb_prop in Hterm as [Hb%bool_decide_eq_true Hw%bool_decide_eq_true].
    by destruct (current_player g).
  - intros [= Hnil]. f_equal.
    destruct (terminal g) eqn:Hterm; [done|].
    by destruct (not_terminal_moves g Hwf Hterm).
Qed.

(** Property X6. On a game state [is_terminal], which asks both colours,
    answers yes exactly when the player to move has no legal move. *)
Theorem is_terminal_iff_player_stuck g :
  wf_game g →
  is_terminal g = Ok true ↔ get_legal_moves g (current_player g) = Ok [].
Proof. apply terminal_iff_stuck. Qed.

Lemma is_terminal_iff_player_stuck_witness :
  is_terminal (new_game 2 2) = Ok true
  ↔ get_legal_moves (new_game 2 2) (current_player (new_game 2 2)) = Ok [].
Proof.
  apply (is_terminal_iff_player_stuck (new_game 2 2)).
  apply (bool_decide_unpack _). vm_compute. exact I.
Defined.

(** ** The two players' moves mirror each other *)

Lemma StronglySorted_NoDup {A} (R : relation A) (l : list A) :
  (∀ x, ¬ R x x) → StronglySorted R l → NoDup l.
Proof.
  intros Hirr. induction 1 as [|x l _ IH Hx]; constructor; [|done].
  intros Hin. rewrite Forall_forall in Hx. by apply (Hirr x), Hx.
Qed.

Lemma legal_moves_NoDup g player : NoDup (legal_moves g player).
Proof.
  apply (StronglySorted_NoDup generated_before); [|apply legal_moves_sorted].
  intros mv. unfold generated_before. lia.
Qed.

(** Property X7. The moves of the two players mirror each other: a move
    is legal for one exactly when the move back is legal for the other,
    so both always have the same number of legal moves. *)
Theorem legal_moves_mirror g player :
  grid_ok g → player ≠ EMPTY →
  ∃ ours theirs,
    get_legal_moves g player = Ok ours
    ∧ get_legal_moves g (opponent player) = Ok theirs
    ∧ (∀ mv, mv ∈ ours ↔ reverse_move mv ∈ theirs)
    ∧ length ours = length theirs.
Proof.
  intros Hg Hp. exists (legal_moves g player), (legal_moves g (opponent player)).
  assert (Hp' : opponent player ≠ EMPTY) by (by destruct player).
  assert (Hopp : opponent (opponent player) = player) by (by destruct player).
  assert (Hmirror : ∀ mv, mv ∈ legal_moves g player
                          ↔ reverse_move mv ∈ legal_moves g (opponent player)).
  { intros mv. rewrite !elem_of_legal_moves by done. split.
    - by apply clobbers_reverse.
    - intros Hmv%clobbers_reverse; [|done]. rewrite Hopp in Hmv.
      by destruct mv as [src dst]. }
  repeat split; try (by apply get_legal_moves_ok); try apply Hmirror.
  rewrite <-(length_fmap reverse_move (legal_moves g player)).
  apply Permutation_length, NoDup_Permutation.
  - apply NoDup_fmap_2; [|apply legal_moves_NoDup].
    intros [a b] [c d] [= -> ->]. done.
  - apply legal_moves_NoDup.
  - intros [src dst]. rewrite list_elem_of_fmap. split.
    + intros (mv & -> & Hmv). by apply Hmirror.
    + intros Hmv. exists (dst, src). split; [done|]. by apply Hmirror.
Qed.

Lemma legal_moves_mirror_witness :
  ∃ ours theirs,
    get_legal_moves (new_game 2 3) BLACK = Ok ours
    ∧ get_legal_moves (new_game 2 3) (opponent BLACK) = Ok theirs
    ∧ (∀ mv, mv ∈ ours ↔ reverse_move mv ∈ theirs)
    ∧ length ours = length theirs.
Proof.
  apply (legal_moves_mirror (new_game 2 3) BLACK).
  - apply (bool_decide_unpack _). vm_compute. exact I.
  - discriminate.
Defined.

(** ** How long a game can last *)

Lemma stone_at_counts (b : list (list cell)) r c x :
  cell_at b r c = Some x → x ≠ EMPTY →
  1 <= PyList.sum (PyList.count BLACK <$> b)
       + PyList.sum (PyList.count WHITE <$> b).
Proof.
  intros Hx Hne.
  pose proof (sum_count_put BLACK b r c x EMPTY Hx) as HB.
  pose proof (sum_count_put WHITE b r c x EMPTY Hx) as HW.
  pose proof (sum_count_nonneg BLACK (put b r c EMPTY)).
  pose proof (sum_count_nonneg WHITE (put b r c EMPTY)).
  destruct x; [| |done]; repeat case_decide; try done; lia.
Qed.

Lemma stone_count_after_move g mv :
  wf_game g → clobbers g (current_player g) mv →
  1 <= stone_count (apply_move g mv).
Proof.
  intros [Hg Hp] Hmv. pose proof (clobbers_distinct _ _ _ Hmv) as Hne.
  rewrite apply_move_clobbers by done.
  destruct Hmv as (Hsrc & Hcs & Hdst & _ & Hcd).
  pose proof (to_nat_coord_ne g _ _ Hsrc Hdst Hne) as Hne'.
  destruct Hsrc as [Hi Hj], Hdst as [Hni Hnj].
  rewrite get_cell_nonneg in Hcs, Hcd by lia.
  unfold stone_count. simpl.
  apply (stone_at_counts _ (Z.to_nat mv.2.1) (Z.to_nat mv.2.2) (current_player g));
    [|done].
  rewrite cell_at_put.
  - rewrite decide_False by (intros [? ?]; apply Hne'; congruence).
    rewrite cell_at_put by (by rewrite Hcd). by rewrite decide_True.
  - rewrite cell_at_put by (by rewrite Hcd).
    rewrite decide_False by (intros [? ?]; apply Hne'; congruence).
    by rewrite Hcs.
Qed.

Lemma play_steps_clobbers g moves mv :
  wf_game g → get_legal_moves g (current_player g) = Ok moves → mv ∈ moves →
  clobbers g (current_player g) mv.
Proof.
  intros [Hg Hp] Hmoves Hmv.
  rewrite get_legal_moves_ok in Hmoves by done. simplify_eq.
  by apply elem_of_legal_moves.
Qed.

Lemma play_steps_count g n g' :
  wf_game g → play_steps g n g' →
  wf_game g'
  ∧ stone_count g' = stone_count g - Z.of_nat n
  ∧ (n ≠ 0%nat → Z.of_nat n < stone_count g).
Proof.
  intros Hwf Hsteps.
  induction Hsteps as [g|g moves mv n g' Hmoves Hmv _ IH].
  - split; [done|]. split; [lia|done].
  - pose proof (play_steps_clobbers g moves mv Hwf Hmoves Hmv) as Hc.
    destruct Hwf as [Hg Hp].
    destruct IH as (Hwf' & Hcount & Hlen); [by apply wf_game_apply_move|].
    pose proof (stone_count_apply_move g mv (conj Hg Hp) Hc) as Hstep.
    pose proof (stone_count_after_move g mv (conj Hg Hp) Hc) as Hone.
    split; [done|]. split; [lia|]. intros _.
    destruct n as [|n]; [lia|]. specialize (Hlen ltac:(done)). lia.
Qed.

(** Property X8. Along any sequence of legal moves from a game state
    each move removes exactly one stone and at least one stone stays: a
    position with [k] stones is at most [k - 1] moves from the end of
    the game. *)
Theorem game_length g n g' :
  wf_game g → play_steps g n g' →
  wf_game g'
  ∧ stone_count g' = stone_count g - Z.of_nat n
  ∧ (n ≠ 0%nat → Z.of_nat n < stone_count g).
Proof. apply play_steps_count. Qed.

Lemma game_length_witness :
  wf_game (apply_move (new_game 2 2) ((0, 0), (0, 1)))
  ∧ stone_count (apply_move (new_game 2 2) ((0, 0), (0, 1)))
    = stone_count (new_game 2 2) - Z.of_nat 1
  ∧ (1%nat ≠ 0%nat → Z.of_nat 1 < stone_count (new_game 2 2)).
Proof.
  apply (game_length (new_game 2 2) 1 (apply_move (new_game 2 2) ((0, 0), (0, 1)))).
  - apply (bool_decide_unpack _). vm_compute. exact I.
  - apply (play_steps_move (new_game 2 2) [((0, 0), (1, 0)); ((0, 0), (0, 1)); ((1, 1), (0, 1)); ((1, 1), (1, 0))] ((0, 0), (0, 1))).
    + reflexivity.
    + apply list_elem_of_In. simpl. auto.
    + apply play_steps_stay.
Defined.

Lemma count_stones_row (row : list cell) :
  Forall (λ c, c ≠ EMPTY) row →
  PyList.count BLACK row + PyList.count WHITE row = Z.of_nat (length row).
Proof.
  induction 1 as [|c row Hc _ IH]; [done|].
  rewrite !count_cons. simpl length.
  destruct c; [| |done]; repeat case_decide; try done; lia.
Qed.

Lemma stone_count_new_game rows cols :
  0 <= rows → 0 <= cols → stone_count (new_game rows cols) = rows * cols.
Proof.
  intros Hrows Hcols. unfold stone_count. simpl. rewrite init_board_rows.
  unfold PyList.range. rewrite <-(Z2Nat.id rows) at 3 by done.
  rewrite <-(length_seqZ 0 rows). generalize (seqZ 0 rows) as rs.
  induction rs as [|i rs IH]; csimpl; [done|].
  rewrite !sum_cons, Nat2Z.inj_succ.
  rewrite <-Z.add_assoc, (Z.add_comm (PyList.sum _)), !Z.add_assoc.
  rewrite count_stones_row.
  - rewrite length_fmap, length_seqZ. lia.
  - apply Forall_fmap, Forall_forall. intros j _. simpl. by case_decide.
Qed.

(** Property X9. A game started on a fresh [rows] x [cols] board has
    [rows * cols] stones at the start and lasts fewer than
    [rows * cols] moves. *)
Theorem game_on_new_board_length rows cols n g' :
  2 <= rows → 2 <= cols → play_steps (new_game rows cols) n g' →
  Z.of_nat n < rows * cols
  ∧ stone_count g' = rows * cols - Z.of_nat n.
Proof.
  intros Hrows Hcols Hsteps.
  assert (Hwf : wf_game (new_game rows cols)).
  { split; [apply grid_ok_new_game; lia|done]. }
  destruct (play_steps_count _ _ _ Hwf Hsteps) as (_ & Hcount & Hlen).
  rewrite stone_count_new_game in * by lia. split; [|done].
  destruct n; [nia|]. by apply Hlen.
Qed.

Lemma game_on_new_board_length_witness :
  Z.of_nat 1 < 2 * 2
  ∧ stone_count (apply_move (new_game 2 2) ((0, 0), (0, 1))) = 2 * 2 - Z.of_nat 1.
Proof.
  apply (game_on_new_board_length 2 2 1
           (apply_move (new_game 2 2) ((0, 0), (0, 1)))).
  - lia.
  - lia.
  - apply (play_steps_move (new_game 2 2) [((0, 0), (1, 0)); ((0, 0), (0, 1)); ((1, 1), (0, 1)); ((1, 1), (1, 0))] ((0, 0), (0, 1))).
    + reflexivity.
    + apply list_elem_of_In. simpl. auto.
    + apply play_steps_stay.
Defined.

(** ** The search inside a window *)

Lemma within_window_reading α β m v :
  vlt α β → within_window α β m v →
  (vle v α → vle m α) ∧ (vle β v → vle β m) ∧ (vlt α v → vlt v β → v = m).
Proof.
  unfold within_window. intros Hab Hwin.
  repeat split; value_cases; simplify_eq; try done; try lia; f_equal; lia.
Qed.

(** Property X10. For every window [alpha < beta], not only the full one,
    [alpha_beta] restores the object and its result tells where the
    minimax value lies: at or below [alpha] if the result is, at or
    above [beta] if the result is, and equal to the result when the
    result is strictly inside the window. *)
Theorem alpha_beta_respects_window fuel g depth α β maximizing :
  wf_game g → (plies g depth < fuel)%nat → vlt α β →
  ∃ v, alpha_beta fuel g depth α β maximizing = Ok (v, g)
     ∧ (vle v α → vle (minimax (plies g depth) g maximizing) α)
     ∧ (vle β v → vle β (minimax (plies g depth) g maximizing))
     ∧ (vlt α v → vlt v β → v = minimax (plies g depth) g maximizing).
Proof.
  intros Hwf Hfuel Hab.
  destruct (alpha_beta_window fuel g depth α β maximizing Hwf Hfuel Hab)
    as (v & Hv & Hwin).
  exists v. split; [done|]. by apply within_window_reading.
Qed.

Lemma alpha_beta_respects_window_witness :
  ∃ v, alpha_beta 5 (new_game 2 3) 4 (Int (-1)) (Int 1) true = Ok (v, new_game 2 3)
     ∧ (vle v (Int (-1)) →
        vle (minimax (plies (new_game 2 3) 4) (new_game 2 3) true) (Int (-1)))
     ∧ (vle (Int 1) v →
        vle (Int 1) (minimax (plies (new_game 2 3) 4) (new_game 2 3) true))
     ∧ (vlt (Int (-1)) v → vlt v (Int 1) →
        v = minimax (plies (new_game 2 3) 4) (new_game 2 3) true).
Proof.
  apply (alpha_beta_respects_window 5 (new_game 2 3) 4 (Int (-1)) (Int 1) true).
  - apply (bool_decide_unpack _). vm_compute. exact I.
  - vm_compute. lia.
  - vm_compute. exact I.
Defined.

(** ** The search never returns an infinity on a game state *)

Lemma vmax_Int_r a z : a ≠ PosInf → ∃ z', vmax a (Int z) = Int z'.
Proof. destruct a; [| |done]; intros _; value_cases; by eexists. Qed.

Lemma vmin_Int_r a z : a ≠ NegInf → ∃ z', vmin a (Int z) = Int z'.
Proof. destruct a; [done| |]; intros _; value_cases; by eexists. Qed.

Section FiniteLoops.
Variable call :
  ClobberGame → Z → value → value → bool → outcome (value * ClobberGame).
Variables (depth : Z) (g : ClobberGame).
Hypothesis Hwf : wf_game g.

Lemma max_loop_finite moves acc α β :
  (∀ mv, mv ∈ moves → clobbers g (current_player g) mv) →
  (∀ mv a b, mv ∈ moves →
     ∃ z, call (apply_move g mv) (depth - 1) a b false
          = Ok (Int z, apply_move g mv)) →
  acc ≠ PosInf → (moves = [] → acc ≠ NegInf) →
  ∃ z, max_loop call depth moves g acc α β = Ok (Int z, g).
Proof.
  revert acc α.
  induction moves as [|mv rest IH]; intros acc α Hlegal Hcall Hpos Hneg.
  - destruct acc; [by destruct Hneg|by eexists|done].
  - destruct (Hcall mv α β) as [z Hz]; [by left|].
    cbn [max_loop]. fold (apply_move g mv). rewrite Hz, bind_Ok.
    fold (revert_move (apply_move g mv) mv).
    rewrite undo_make_move by (done || apply Hlegal; by left).
    destruct (vmax_Int_r acc z Hpos) as [z' Hz'].
    destruct (vle β (vmax α (Int z))); [by eexists; rewrite Hz'|].
    rewrite Hz'. apply IH; try done.
    + intros mv' Hmv'. apply Hlegal. by right.
    + intros mv' a b Hmv'. apply Hcall. by right.
Qed.

Lemma min_loop_finite moves acc α β :
  (∀ mv, mv ∈ moves → clobbers g (current_player g) mv) →
  (∀ mv a b, mv ∈ moves →
     ∃ z, call (apply_move g mv) (depth - 1) a b true
          = Ok (Int z, apply_move g mv)) →
  acc ≠ NegInf → (moves = [] → acc ≠ PosInf) →
  ∃ z, min_loop call depth moves g acc α β = Ok (Int z, g).
Proof.
  revert acc β.
  induction moves as [|mv rest IH]; intros acc β Hlegal Hcall Hneg Hpos.
  - destruct acc; [done|by eexists|by destruct Hpos].
  - destruct (Hcall mv α β) as [z Hz]; [by left|].
    cbn [min_loop]. fold (apply_move g mv). rewrite Hz, bind_Ok.
    fold (revert_move (apply_move g mv) mv).
    rewrite undo_make_move by (done || apply Hlegal; by left).
    destruct (vmin_Int_r acc z Hneg) as [z' Hz'].
    destruct (vle (vmin β (Int z)) α); [by eexists; rewrite Hz'|].
    rewrite Hz'. apply IH; try done.
    + intros mv' Hmv'. apply Hlegal. by right.
    + intros mv' a b Hmv'. apply Hcall. by right.
Qed.

End FiniteLoops.

(** Property X11. On a game state [alpha_beta] returns an integer and
    restores the object, whatever the depth and the window, an empty or
    inverted window included: the infinities of its accumulators never
    come out. *)
Theorem alpha_beta_finite fuel g depth α β maximizing :
  wf_game g → (plies g depth < fuel)%nat →
  ∃ z, alpha_beta fuel g depth α β maximizing = Ok (Int z, g).
Proof.
  revert g depth α β maximizing.
  induction fuel as [|fuel IH]; intros g depth α β mx Hwf Hfuel; [lia|].
  pose proof Hwf as [Hg Hp]. cbn [alpha_beta].
  destruct (decide (depth = 0)) as [->|Hdepth]; [rewrite bind_Ok; by eexists|].
  rewrite is_terminal_ok, bind_Ok by done.
  destruct (terminal g) eqn:Hterm; [by eexists|].
  rewrite get_legal_moves_ok, bind_Ok by done.
  assert (Hlegal : ∀ mv, mv ∈ legal_moves g (current_player g) →
                         clobbers g (current_player g) mv).
  { intros mv. by apply elem_of_legal_moves. }
  assert (Hcall : ∀ mx' mv a b, mv ∈ legal_moves g (current_player g) →
            ∃ z, alpha_beta fuel (apply_move g mv) (depth - 1) a b mx'
                 = Ok (Int z, apply_move g mv)).
  { intros mx' mv a b Hmv. apply IH; [apply wf_game_apply_move; auto|].
    pose proof (plies_apply_move g mv depth Hwf (Hlegal mv Hmv) Hdepth). lia. }
  pose proof (not_terminal_moves g Hwf Hterm) as Hmoves.
  destruct mx.
  - by apply max_loop_finite; auto.
  - by apply min_loop_finite; auto.
Qed.

Lemma alpha_beta_finite_witness :
  ∃ z, alpha_beta 5 (new_game 2 3) 4 PosInf NegInf false
       = Ok (Int z, new_game 2 3).
Proof.
  apply (alpha_beta_finite 5 (new_game 2 3) 4 PosInf NegInf false).
  - apply (bool_decide_unpack _). vm_compute. exact I.
  - vm_compute. lia.
Defined.

(** ** Which move the selector picks *)

Lemma select_cons player mv v rest best_move best_value :
  select player ((mv, v) :: rest) best_move best_value
  = if prefers player v best_value then select player rest (Some mv) v
    else select player rest best_move best_value.
Proof.
  cbn [select]. destruct player; simpl; [done| |done].
  by destruct (vlt v best_value).
Qed.

Lemma prefers_trans player a b c :
  prefers player a b = true → prefers player b c = true →
  prefers player a c = true.
Proof. destruct player; simpl; [| |done]; value_cases. Qed.

Lemma prefers_over_rejected player a b c :
  prefers player b c = false → prefers player a c = true →
  prefers player a b = true.
Proof. destruct player; simpl; [| |done]; value_cases. Qed.

Lemma select_best player candidates best_move best_value :
  (select player candidates best_move best_value = best_move
   ∧ Forall (λ c, prefers player c.2 best_value = false) candidates)
  ∨ ∃ before mv v after,
      candidates = before ++ (mv, v) :: after
      ∧ select player candidates best_move best_value = Some mv
      ∧ prefers player v best_value = true
      ∧ Forall (λ c, prefers player v c.2 = true) before
      ∧ Forall (λ c, prefers player c.2 v = false) after.
Proof.
  revert best_move best_value.
  induction candidates as [|[mv1 v1] rest IH]; intros best_move best_value.
  - left. by split.
  - rewrite select_cons. destruct (prefers player v1 best_value) eqn:Hv1.
    + right. destruct (IH (Some mv1) v1)
        as [[Hsel Hall]|(before & mv & v & after & -> & Hsel & Hv & Hb & Ha)].
      * exists [], mv1, v1, rest. by repeat split.
      * exists ((mv1, v1) :: before), mv, v, after. repeat split; try done.
        -- by eapply prefers_trans.
        -- by constructor.
    + destruct (IH best_move best_value)
        as [[Hsel Hall]|(before & mv & v & after & -> & Hsel & Hv & Hb & Ha)].
      * left. split; [done|]. by constructor.
      * right. exists ((mv1, v1) :: before), mv, v, after.
        repeat split; try done. constructor; [|done]. simpl.
        by eapply prefers_over_rejected.
Qed.

Lemma prefers_initial player z :
  player ≠ EMPTY →
  prefers player (Int z) (if decide (player = BLACK) then NegInf else PosInf)
  = true.
Proof. by destruct player. Qed.

(** Property X12. When the player to move has a legal move, [ai_move]
    restores the object and returns the first move, in generation
    order, whose searched value is best for the mover (highest for
    BLACK, lowest for WHITE): it is strictly better than every move
    generated before it and no move generated after it is strictly
    better. *)
Theorem ai_move_picks_first_best fuel g depth moves :
  wf_game g → (plies g (depth - 1) < fuel)%nat →
  get_legal_moves g (current_player g) = Ok moves → moves ≠ [] →
  ∃ before mv after,
    moves = before ++ mv :: after
    ∧ ai_move fuel g depth = Ok (Some mv, g)
    ∧ Forall (λ m, prefers (current_player g) (searched g depth mv).2
                     (searched g depth m).2 = true) before
    ∧ Forall (λ m, prefers (current_player g) (searched g depth m).2
                     (searched g depth mv).2 = false) after.
Proof.
  intros Hwf Hfuel Hmoves Hne. pose proof Hwf as [Hg Hp].
  rewrite ai_move_ok by done.
  rewrite get_legal_moves_ok in Hmoves by done. simplify_eq.
  unfold choose_move.
  assert (Hfin : Forall (λ c, ∃ z, c.2 = Int z)
                   (searched g depth <$> legal_moves g (current_player g))).
  { apply searched_finite; [done|]. intros mv. by apply elem_of_legal_moves. }
  match goal with
  | |- context [select ?p ?cs ?bm ?bv] =>
    destruct (select_best p cs bm bv)
      as [[_ Hall]|(before & mv & v & after & Hcs & Hsel & _ & Hb & Ha)]
  end.
  - destruct (legal_moves g (current_player g)) as [|mv moves]; [done|].
    rewrite fmap_cons in Hall, Hfin.
    apply Forall_cons in Hall as [Hrej _]. apply Forall_cons in Hfin as [[z Hz] _].
    rewrite Hz, prefers_initial in Hrej by done. done.
  - apply fmap_app_inv in Hcs as (before' & rest & -> & Hrest & Hmoves).
    symmetry in Hrest.
    apply fmap_cons_inv in Hrest as (mv' & after' & Hmv' & -> & ->).
    unfold searched in Hmv' at 1. simplify_eq.
    exists before', mv', after'. split; [done|]. split; [by rewrite Hsel|].
    rewrite Forall_fmap in Hb, Ha. split; [exact Hb|exact Ha].
Qed.

Lemma ai_move_picks_first_best_witness :
  ∃ before mv after,
    [((0, 0), (1, 0)); ((0, 0), (0, 1)); ((1, 1), (0, 1)); ((1, 1), (1, 0))]
    = before ++ mv :: after
    ∧ ai_move 5 (new_game 2 2) 5 = Ok (Some mv, new_game 2 2)
    ∧ Forall (λ m, prefers (current_player (new_game 2 2))
                     (searched (new_game 2 2) 5 mv).2
                     (searched (new_game 2 2) 5 m).2 = true) before
    ∧ Forall (λ m, prefers (current_player (new_game 2 2))
                     (searched (new_game 2 2) 5 m).2
                     (searched (new_game 2 2) 5 mv).2 = false) after.
Proof.
  apply (ai_move_picks_first_best 5 (new_game 2 2) 5
           [((0, 0), (1, 0)); ((0, 0), (0, 1)); ((1, 1), (0, 1)); ((1, 1), (1, 0))]).
  - apply (bool_decide_unpack _). vm_compute. exact I.
  - vm_compute. lia.
  - reflexivity.
  - discriminate.
Defined.

(** ** Invariants of the reachable states *)

Lemma rows_cols_apply_move g mv :
  rows (apply_move g mv) = rows g ∧ cols (apply_move g mv) = cols g.
Proof.
  unfold apply_move, make_move. destruct mv as [[i j] [ni nj]].
  repeat case_match; simpl; done.
Qed.

(** Property X13. Every reachable state has a board of the declared
    shape of at least 2x2, BLACK or WHITE to move, and at least one
    stone on the board. *)
Theorem reachable_invariants g :
  reachable g →
  wf_game g ∧ 2 <= rows g ∧ 2 <= cols g ∧ 1 <= stone_count g.
Proof.
  induction 1 as [rows cols Hrows Hcols
                 |g moves mv _ (Hwf & Hr & Hc & Hcount) Hmoves Hmv].
  - split; [split; [apply grid_ok_new_game; lia|done]|].
    rewrite stone_count_new_game by lia. simpl. nia.
  - pose proof (play_steps_clobbers g moves mv Hwf Hmoves Hmv) as Hclob.
    destruct (rows_cols_apply_move g mv) as [-> ->].
    split; [apply wf_game_apply_move; [apply Hwf|done]|].
    split; [done|]. split; [done|]. by apply stone_count_after_move.
Qed.

Lemma reachable_invariants_witness :
  wf_game (new_game 2 3) ∧ 2 <= rows (new_game 2 3)
  ∧ 2 <= cols (new_game 2 3) ∧ 1 <= stone_count (new_game 2 3).
Proof.
  apply (reachable_invariants (new_game 2 3)).
  apply reachable_new; lia.
Defined.

Lemma reachable_play_steps g n g' :
  reachable g → play_steps g n g' → reachable g'.
Proof.
  intros Hg Hsteps. induction Hsteps as [g|g moves mv n g' Hmoves Hmv _ IH];
    [done|].
  apply IH. by eapply reachable_move.
Qed.

(** ** When the initial position is already over *)

Lemma new_game_first_cells rows cols :
  1 <= rows → 1 <= cols →
  get_cell (board (new_game rows cols)) 0 0 = Some BLACK
  ∧ (2 <= cols → get_cell (board (new_game rows cols)) 0 1 = Some WHITE)
  ∧ (2 <= rows → get_cell (board (new_game rows cols)) 1 0 = Some WHITE).
Proof.
  intros Hrows Hcols. simpl. split; [|split]; intros;
    by rewrite init_board_cell by lia.
Qed.

Lemma new_game_terminal rows cols :
  0 <= rows → 0 <= cols →
  is_terminal (new_game rows cols) = Ok true ↔ rows * cols <= 1.
Proof.
  intros Hrows Hcols.
  assert (Hwf : wf_game (new_game rows cols)).
  { split; [by apply grid_ok_new_game|done]. }
  rewrite (terminal_iff_stuck _ Hwf).
  rewrite get_legal_moves_ok by apply Hwf. simpl. split.
  - intros [= Hnil].
    destruct (decide (rows * cols <= 1)) as [|Hbig]; [done|exfalso].
    assert (1 <= rows ∧ 1 <= cols ∧ (2 <= cols ∨ 2 <= rows)) as (Hr & Hc & Htwo)
      by nia.
    destruct (new_game_first_cells rows cols Hr Hc) as (H00 & H01 & H10).
    destruct Htwo as [Htwo|Htwo].
    + assert (((0, 0), (0, 1)) ∈ legal_moves (new_game rows cols) BLACK) as Hin.
      { apply elem_of_legal_moves; [apply Hwf|done|].
        unfold clobbers, in_bounds, orthogonal_neighbour. simpl.
        rewrite <-H00, <-(H01 Htwo). simpl. repeat split; try done; try lia. }
      rewrite Hnil in Hin. by apply elem_of_nil in Hin.
    + assert (((0, 0), (1, 0)) ∈ legal_moves (new_game rows cols) BLACK) as Hin.
      { apply elem_of_legal_moves; [apply Hwf|done|].
        unfold clobbers, in_bounds, orthogonal_neighbour. simpl.
        rewrite <-H00, <-(H10 Htwo). simpl. repeat split; try done; try lia. }
      rewrite Hnil in Hin. by apply elem_of_nil in Hin.
  - intros Hsmall. f_equal. apply elem_of_nil_inv. intros mv Hmv.
    apply elem_of_legal_moves in Hmv; [|apply Hwf|done].
    destruct Hmv as ([Hi Hj] & _ & [Hni Hnj] & Hadj & _).
    unfold orthogonal_neighbour in Hadj. simpl in *. nia.
Qed.

(** Property X14. A freshly built board is a finished game exactly when
    it has at most one cell: with explicit sizes [__init__] checks
    nothing, and from two cells on BLACK has a first move. *)
Theorem new_game_terminal_iff rows cols :
  0 <= rows → 0 <= cols →
  is_terminal (new_game rows cols) = Ok true ↔ rows * cols <= 1.
Proof. apply new_game_terminal. Qed.

Lemma new_game_terminal_iff_witness :
  is_terminal (new_game 1 1) = Ok true ↔ 1 * 1 <= 1.
Proof. apply (new_game_terminal_iff 1 1); lia. Defined.

(** ** The display *)

Lemma cell_str_inj c c' : cell_str c = cell_str c' → c = c'.
Proof. by destruct c, c'. Qed.

Lemma join_cons_cons sep x y l :
  join sep (x :: y :: l) = String.append x (String.append sep (join sep (y :: l))).
Proof. reflexivity. Qed.

Lemma join_cells_inj (row row' : list cell) :
  join " " (cell_str <$> row) = join " " (cell_str <$> row') → row = row'.
Proof.
  revert row'. induction row as [|c row IH]; intros [|c' row'] Heq.
  - done.
  - destruct c', row'; done.
  - destruct c, row; done.
  - destruct row as [|d row], row' as [|d' row'].
    + f_equal. by apply cell_str_inj.
    + destruct c, c'; done.
    + destruct c, c'; done.
    + rewrite !fmap_cons, !join_cons_cons, <-!fmap_cons in Heq.
      assert (c = c' ∧ join " " (cell_str <$> d :: row)
                       = join " " (cell_str <$> d' :: row')) as [-> Hrest].
      { destruct c, c'; simpl in Heq; by simplify_eq. }
      f_equal. by apply IH.
Qed.

Lemma join_cells_length (row : list cell) :
  String.length (join " " (cell_str <$> row)) = (2 * length row - 1)%nat.
Proof.
  induction row as [|c row IH]; [done|].
  destruct row as [|d row]; [by destruct c|].
  rewrite fmap_cons, fmap_cons, join_cons_cons, <-fmap_cons.
  destruct c; cbn [cell_str String.append String.length];
    rewrite IH; cbn [length]; lia.
Qed.

Lemma join_cells_get_cell (row : list cell) (k : nat) c :
  row !! k = Some c →
  String.get (2 * k) (join " " (cell_str <$> row)) = String.get 0 (cell_str c).
Proof.
  revert k. induction row as [|c0 row IH]; intros k Hk; [done|].
  destruct row as [|d row].
  - destruct k as [|k]; [|done]. by simplify_eq/=.
  - rewrite fmap_cons, fmap_cons, join_cons_cons, <-fmap_cons.
    destruct k as [|k].
    + simplify_eq/=. by destruct c.
    + replace (2 * S k)%nat with (S (S (2 * k))) by lia.
      rewrite <-(IH k) by done.
      by destruct c0.
Qed.

Lemma join_cells_get_space (row : list cell) (k : nat) :
  (S k < length row)%nat →
  String.get (2 * k + 1) (join " " (cell_str <$> row)) = Some " "%char.
Proof.
  revert k. induction row as [|c0 row IH]; intros k Hk; [simpl in Hk; lia|].
  destruct row as [|d row]; [simpl in Hk; lia|].
  rewrite fmap_cons, fmap_cons, join_cons_cons, <-fmap_cons.
  destruct k as [|k].
  - by destruct c0.
  - replace (2 * S k + 1)%nat with (S (S (2 * k + 1))) by lia.
    rewrite <-(IH k) by (simpl in *; lia).
    by destruct c0.
Qed.

Lemma display_board_inj g g' :
  display_board g = display_board g' → board g = board g'.
Proof.
  unfold display_board. intros Heq.
  apply app_inv_tail in Heq. revert Heq.
  generalize (board g'). induction (board g) as [|row b IH];
    intros [|row' b'] Heq; try done.
  rewrite !fmap_cons in Heq. simplify_eq. f_equal; [|by apply IH].
  by apply join_cells_inj.
Qed.

(** Property X15. [display_board] prints the rows of the board in order,
    one line each, and one empty line after the last row. The line of a
    row holds its cells from left to right: the character of cell [k] at
    position [2 * k], a single space between two neighbours, nothing
    before the first cell or after the last. So the lines determine the
    board: two boards printed alike are equal. *)
Theorem display_board_faithful g g' :
  length (display_board g) = S (length (board g))
  ∧ display_board g !! length (board g) = Some (Line "")
  ∧ (∀ r row, board g !! r = Some row →
       ∃ s, display_board g !! r = Some (Line s)
          ∧ String.length s = (2 * length row - 1)%nat
          ∧ (∀ k c, row !! k = Some c →
                    String.get (2 * k) s = String.get 0 (cell_str c))
          ∧ (∀ k, (S k < length row)%nat →
                  String.get (2 * k + 1) s = Some " "%char))
  ∧ (display_board g = display_board g' → board g = board g').
Proof.
  split; [|split; [|split]].
  - unfold display_board. rewrite length_app, length_fmap. simpl. lia.
  - unfold display_board. rewrite lookup_app_r by (rewrite length_fmap; lia).
    rewrite length_fmap. by replace (_ - _)%nat with 0%nat by lia.
  - intros r row Hrow. exists (join " " (cell_str <$> row)).
    split; [|split; [|split]].
    + unfold display_board.
      rewrite lookup_app_l
        by (rewrite length_fmap; by eapply lookup_lt_Some).
      by rewrite list_lookup_fmap, Hrow.
    + apply join_cells_length.
    + apply join_cells_get_cell.
    + apply join_cells_get_space.
  - apply display_board_inj.
Qed.

Lemma display_board_faithful_witness :
  length (display_board (new_game 2 3)) = S (length (board (new_game 2 3)))
  ∧ display_board (new_game 2 3) !! length (board (new_game 2 3))
    = Some (Line "")
  ∧ (∀ r row, board (new_game 2 3) !! r = Some row →
       ∃ s, display_board (new_game 2 3) !! r = Some (Line s)
          ∧ String.length s = (2 * length row - 1)%nat
          ∧ (∀ k c, row !! k = Some c →
                    String.get (2 * k) s = String.get 0 (cell_str c))
          ∧ (∀ k, (S k < length row)%nat →
                  String.get (2 * k + 1) s = Some " "%char))
  ∧ (display_board (new_game 2 3) = display_board (new_game 2 3) →
     board (new_game 2 3) = board (new_game 2 3)).
Proof. apply (display_board_faithful (new_game 2 3) (new_game 2 3)). Defined.

(** ** Reading the grid size *)

Section ConsoleFacts.
Variable int : string → option Z.
Variable split : string → list string.

Lemma get_grid_size_from_user_post_bounded (n : nat) stdin stdout r c rest out :
  (length stdin <= n)%nat →
  get_grid_size_from_user int stdin stdout = Returned (r, c) rest out →
  1 < r ∧ 1 < c
  ∧ ∃ skipped line1 line2,
      stdin = skipped ++ line1 :: line2 :: rest
      ∧ int line1 = Some r ∧ int line2 = Some c.
Proof.
  revert stdin stdout. induction n as [|n IH]; intros stdin stdout Hlen Hret.
  { destruct stdin; [done|simpl in Hlen; lia]. }
  destruct stdin as [|line1 stdin1]; [done|]. simpl in Hlen, Hret.
  destruct (int line1) as [rows|] eqn:Hrows.
  - destruct stdin1 as [|line2 stdin2]; [done|]. simpl in Hlen.
    destruct (int line2) as [cols|] eqn:Hcols.
    + case_decide as Hbig.
      * simplify_eq. split; [lia|]. split; [lia|]. by exists [], line1, line2.
      * apply IH in Hret as (? & ? & skipped & l1 & l2 & -> & ? & ?); [|lia].
        split; [done|]. split; [done|].
        by exists (line1 :: line2 :: skipped), l1, l2.
    + apply IH in Hret as (? & ? & skipped & l1 & l2 & -> & ? & ?); [|lia].
      split; [done|]. split; [done|].
      by exists (line1 :: line2 :: skipped), l1, l2.
  - apply IH in Hret as (? & ? & skipped & l1 & l2 & -> & ? & ?); [|lia].
    split; [done|]. split; [done|]. by exists (line1 :: skipped), l1, l2.
Qed.

(** Property X16. When [get_grid_size_from_user] returns, both sizes are
    greater than 1 and they are what [int] makes of two consecutive
    lines of the input, the last two it read. *)
Theorem get_grid_size_from_user_post stdin stdout r c rest out :
  get_grid_size_from_user int stdin stdout = Returned (r, c) rest out →
  1 < r ∧ 1 < c
  ∧ ∃ skipped line1 line2,
      stdin = skipped ++ line1 :: line2 :: rest
      ∧ int line1 = Some r ∧ int line2 = Some c.
Proof. by apply (get_grid_size_from_user_post_bounded (length stdin)). Qed.

Lemma construct_from_user rows cols stdin stdout g rest out :
  rows = None ∨ cols = None →
  construct int rows cols stdin stdout = Returned g rest out →
  reachable g ∧ current_player g = BLACK ∧ is_terminal g = Ok false.
Proof.
  intros Hnone Hret.
  assert (∃ r c, 1 < r ∧ 1 < c ∧ g = new_game r c) as (r & c & Hr & Hc & ->).
  { unfold construct in Hret.
    destruct (get_grid_size_from_user int stdin stdout) as [[r c] i o|] eqn:Hsize.
    - apply (get_grid_size_from_user_post_bounded (length stdin)) in Hsize
        as (Hr & Hc & _); [|done].
      exists r, c. destruct rows, cols, Hnone; by simplify_eq.
    - destruct rows, cols, Hnone; by simplify_eq. }
  split; [apply reachable_new; lia|]. split; [done|].
  rewrite is_terminal_ok by (apply grid_ok_new_game; lia). f_equal.
  destruct (terminal (new_game r c)) eqn:Hterm; [|done].
  assert (is_terminal (new_game r c) = Ok true) as Hyes.
  { rewrite is_terminal_ok by (apply grid_ok_new_game; lia). by f_equal. }
  apply new_game_terminal in Hyes; [nia|lia..].
Qed.

(** Property X17. A [ClobberGame] built without both sizes given starts
    a game: the object is a reachable state, BLACK is to move and the
    position is not terminal. *)
Theorem construct_from_user_reachable rows cols stdin stdout g rest out :
  rows = None ∨ cols = None →
  construct int rows cols stdin stdout = Returned g rest out →
  reachable g ∧ current_player g = BLACK ∧ is_terminal g = Ok false.
Proof. apply construct_from_user. Qed.

(** ** Reading a move *)

Lemma manual_loop_post legal stdin stdout r rest out :
  manual_loop int split legal stdin stdout = Returned r rest out →
  ∃ row1 col1 row2 col2 skipped line t1 t2 t3 t4,
    r = Some ((row1, col1), (row2, col2))
    ∧ ((row1, col1), (row2, col2)) ∈ legal
    ∧ stdin = skipped ++ line :: rest
    ∧ split line = [t1; t2; t3; t4]
    ∧ int t1 = Some row1 ∧ int t2 = Some col1
    ∧ int t3 = Some row2 ∧ int t4 = Some col2.
Proof.
  revert stdout. induction stdin as [|line stdin IH]; intros stdout Hret;
    [done|].
  assert (Hskip : ∀ stdout', manual_loop int split legal stdin stdout'
                            = Returned r rest out →
    ∃ row1 col1 row2 col2 skipped line' t1 t2 t3 t4,
      r = Some ((row1, col1), (row2, col2))
      ∧ ((row1, col1), (row2, col2)) ∈ legal
      ∧ line :: stdin = skipped ++ line' :: rest
      ∧ split line' = [t1; t2; t3; t4]
      ∧ int t1 = Some row1 ∧ int t2 = Some col1
      ∧ int t3 = Some row2 ∧ int t4 = Some col2).
  { intros stdout' Hret'.
    apply IH in Hret'
      as (r1 & c1 & r2 & c2 & skipped & l & t1 & t2 & t3 & t4 & -> & ? & -> & ?).
    by exists r1, c1, r2, c2, (line :: skipped), l, t1, t2, t3, t4. }
  simpl in Hret. case_decide as Hlen; [by eapply Hskip|].
  destruct (split line) as [|t1 [|t2 [|t3 [|t4 [|t5 ts]]]]] eqn:Htokens;
    try (by eapply Hskip).
  destruct (int t1) as [row1|] eqn:H1; [|by eapply Hskip].
  destruct (int t2) as [col1|] eqn:H2; [|by eapply Hskip].
  destruct (int t3) as [row2|] eqn:H3; [|by eapply Hskip].
  destruct (int t4) as [col2|] eqn:H4; [|by eapply Hskip].
  case_decide as Hin; [|by eapply Hskip]. simplify_eq.
  by exists row1, col1, row2, col2, [], line, t1, t2, t3, t4.
Qed.

Lemma get_manual_move_returns g stdin stdout r rest out :
  get_manual_move int split g stdin stdout = Returned r rest out →
  ∃ row1 col1 row2 col2 moves skipped line t1 t2 t3 t4,
    r = Some ((row1, col1), (row2, col2))
    ∧ get_legal_moves g (current_player g) = Ok moves
    ∧ ((row1, col1), (row2, col2)) ∈ moves
    ∧ stdin = skipped ++ line :: rest
    ∧ split line = [t1; t2; t3; t4]
    ∧ int t1 = Some row1 ∧ int t2 = Some col1
    ∧ int t3 = Some row2 ∧ int t4 = Some col2.
Proof.
  unfold get_manual_move.
  destruct (get_legal_moves g (current_player g)) as [moves| |]; [|done..].
  intros (r1 & c1 & r2 & c2 & skipped & l & t1 & t2 & t3 & t4 & Hr & Hrest)
    %manual_loop_post.
  exists r1, c1, r2, c2, moves, skipped, l, t1, t2, t3, t4.
  split; [done|]. split; [done|]. exact Hrest.
Qed.



Lemma manual_loop_no_moves stdin stdout :
  ∃ out, manual_loop int split [] stdin stdout = Failed EOFError out.
Proof.
  revert stdout. induction stdin as [|line stdin IH]; intros stdout;
    [by eexists|].
  simpl. repeat case_match; apply IH.
Qed.

(** Property X19. When the player to move has no legal move,
    [get_manual_move] cannot return: it rejects every line and ends with
    [EOFError] when the input is used up. *)
Theorem get_manual_move_stuck g stdin stdout :
  get_legal_moves g (current_player g) = Ok [] →
  ∃ out, get_manual_move int split g stdin stdout = Failed EOFError out.
Proof.
  intros Hnil. unfold get_manual_move. rewrite Hnil.
  apply manual_loop_no_moves.
Qed.

(** ** The game loop *)

Lemma make_move_clobbers g mv :
  grid_ok g → clobbers g (current_player g) mv →
  make_move g mv = (apply_move g mv, Quiet).
Proof.
  intros Hg (Hsrc & Hp & Hdst & _). destruct mv as [[i j] [ni nj]].
  unfold apply_move. by rewrite make_move_in_bounds.
Qed.

Lemma choose_move_legal g depth :
  wf_game g → terminal g = false →
  ∃ mv, choose_move g depth = Some mv
      ∧ mv ∈ legal_moves g (current_player g).
Proof.
  intros Hwf Hterm. pose proof Hwf as [Hg Hp].
  pose proof (not_terminal_moves g Hwf Hterm) as Hne.
  unfold choose_move.
  destruct (select_finds (current_player g)
              (searched g depth <$> legal_moves g (current_player g)))
    as [mv Hsome]; [done| |apply searched_finite; [done|]|].
  - by destruct (legal_moves g (current_player g)).
  - intros mv. by apply elem_of_legal_moves.
  - exists mv. split; [done|].
    match type of Hsome with
    | select ?p ?cs ?bm ?bv = _ =>
      destruct (select_origin p cs bm bv) as [Hsel|(mv' & Hsel & Hin)]
    end; [congruence|].
    rewrite fst_searched in Hin. congruence.
Qed.

Lemma play_steps_zero g g' : play_steps g 0 g' → g' = g.
Proof. by inversion 1. Qed.

Lemma manual_loop_fails legal stdin stdout e out :
  manual_loop int split legal stdin stdout = Failed e out → e = EOFError.
Proof.
  revert stdout. induction stdin as [|line stdin IH]; intros stdout.
  - by intros [= <- _].
  - simpl. repeat case_match; try apply IH. done.
Qed.

Lemma play_loop_returns rounds fuel g last stdin stdout g' last' rest out :
  wf_game g → (5 <= fuel)%nat →
  play_loop int split rounds fuel g last stdin stdout
  = Returned (g', last') rest out →
  ∃ n, play_steps g n g'
     ∧ is_terminal g' = Ok true
     ∧ (n = 0%nat → last' = last)
     ∧ (n ≠ 0%nat → last' = Some (opponent (current_player g'))).
Proof.
  intros Hwf Hfuel. revert g last stdin stdout Hwf.
  induction rounds as [|rounds IH]; intros g last stdin stdout Hwf Hret; [done|].
  pose proof Hwf as [Hg Hp]. cbn [play_loop] in Hret.
  rewrite is_terminal_ok in Hret by done.
  destruct (terminal g) eqn:Hterm.
  { simplify_eq. exists 0%nat. split; [constructor|].
    split; [by rewrite is_terminal_ok, Hterm|]. by split. }
  assert (Hstep : ∀ mv who i o,
    mv ∈ legal_moves g (current_player g) →
    who = current_player g →
    play_loop int split rounds fuel (apply_move g mv) (Some who) i o
    = Returned (g', last') rest out →
    ∃ n, play_steps g n g' ∧ is_terminal g' = Ok true
       ∧ (n = 0%nat → last' = last)
       ∧ (n ≠ 0%nat → last' = Some (opponent (current_player g')))).
  { intros mv who i o Hmv -> Hloop.
    pose proof Hmv as Hclob. apply elem_of_legal_moves in Hclob; [|done..].
    apply IH in Hloop as (n & Hsteps & Hend & Hzero & Hmore);
      [|by apply wf_game_apply_move].
    exists (S n). split.
    - eapply play_steps_move; [by apply get_legal_moves_ok|done..].
    - split; [done|]. split; [done|]. intros _.
      destruct n as [|n]; [|by apply Hmore].
      rewrite Hzero by done. apply play_steps_zero in Hsteps as ->.
      rewrite apply_move_clobbers by done. simpl.
      by destruct (current_player g). }
  case_decide as Hblack.
  - rewrite ai_move_ok in Hret by (done || (unfold plies; simpl; lia)).
    destruct (choose_move_legal g 5 Hwf Hterm) as (mv & Hchoose & Hmv).
    rewrite Hchoose, make_move_clobbers in Hret by (done || by apply elem_of_legal_moves).
    eapply Hstep; [done| |done]. congruence.
  - destruct (get_manual_move int split g stdin _) as [r i o|] eqn:Hmanual;
      [|done].
    apply get_manual_move_returns in Hmanual
      as (r1 & c1 & r2 & c2 & moves & _ & _ & _ & _ & _ & _ & -> & Hmoves & Hmv & _).
    rewrite get_legal_moves_ok in Hmoves by done. simplify_eq.
    rewrite make_move_clobbers in Hret by (done || by apply elem_of_legal_moves).
    eapply Hstep; [done| |done]. by destruct (current_player g).
Qed.

Lemma play_loop_fails_only_at_eof rounds fuel g last stdin stdout e out :
  wf_game g → (5 <= fuel)%nat → stone_count g < Z.of_nat rounds →
  play_loop int split rounds fuel g last stdin stdout = Failed e out →
  e = EOFError.
Proof.
  intros Hwf Hfuel. revert g last stdin stdout Hwf.
  induction rounds as [|rounds IH]; intros g last stdin stdout Hwf Hcount Hret.
  { pose proof (stone_count_nonneg g). lia. }
  pose proof Hwf as [Hg Hp]. cbn [play_loop] in Hret.
  rewrite is_terminal_ok in Hret by done.
  destruct (terminal g) eqn:Hterm; [done|].
  assert (Hstep : ∀ mv who i o,
    mv ∈ legal_moves g (current_player g) →
    play_loop int split rounds fuel (apply_move g mv) who i o = Failed e out →
    e = EOFError).
  { intros mv who i o Hmv%elem_of_legal_moves Hloop; [|done..].
    eapply IH; [by apply wf_game_apply_move| |done].
    rewrite stone_count_apply_move by done. lia. }
  case_decide as Hblack.
  - rewrite ai_move_ok in Hret by (done || (unfold plies; simpl; lia)).
    destruct (choose_move_legal g 5 Hwf Hterm) as (mv & Hchoose & Hmv).
    rewrite Hchoose, make_move_clobbers in Hret by (done || by apply elem_of_legal_moves).
    by eapply Hstep.
  - destruct (get_manual_move int split g stdin _) as [r i o|e' o] eqn:Hmanual.
    + apply get_manual_move_returns in Hmanual
        as (r1 & c1 & r2 & c2 & moves & _ & _ & _ & _ & _ & _ & -> & Hmoves & Hmv & _).
      rewrite get_legal_moves_ok in Hmoves by done. simplify_eq.
      rewrite make_move_clobbers in Hret
        by (done || by apply elem_of_legal_moves).
      by eapply Hstep.
    + simplify_eq. unfold get_manual_move in Hmanual.
      rewrite get_legal_moves_ok in Hmanual by done.
      by eapply manual_loop_fails.
Qed.

Lemma announcement_after_move g' :
  wf_game g' →
  announcement (Some (opponent (current_player g')))
  = if decide (current_player g' = WHITE) then msg_black_wins
    else msg_white_wins.
Proof. intros [_ Hp]. unfold announcement. by destruct (current_player g'). Qed.

Lemma play_returns rounds fuel g stdin stdout g' rest out :
  wf_game g → (5 <= fuel)%nat →
  play int split rounds fuel g stdin stdout = Returned g' rest out →
  ∃ n out',
    play_steps g n g'
    ∧ is_terminal g' = Ok true
    ∧ out = out'
            ++ [Line (if decide (n = 0%nat) then msg_white_wins
                      else if decide (current_player g' = WHITE)
                           then msg_black_wins else msg_white_wins)].
Proof.
  intros Hwf Hfuel Hplay. unfold play in Hplay.
  destruct (play_loop int split rounds fuel g None stdin stdout)
    as [[g1 last] i o|] eqn:Hloop; [|done].
  simplify_eq.
  apply play_loop_returns in Hloop as (n & Hsteps & Hend & Hzero & Hmore);
    [|done..].
  exists n, (o ++ [Line msg_game_over] ++ display_board g').
  split; [done|]. split; [done|]. rewrite <-!app_assoc. do 5 f_equal.
  case_decide as Hn.
  - by rewrite Hzero.
  - rewrite Hmore by done. apply announcement_after_move.
    by eapply play_steps_count.
Qed.

(** Property X20. When [play] returns from a game state, the moves made
    were all legal, the final position is terminal, and the last line
    printed names the player who moved last as the winner; when no move
    was made at all it names WHITE. *)
Theorem play_announces_last_mover rounds fuel g stdin stdout g' rest out :
  wf_game g → (5 <= fuel)%nat →
  play int split rounds fuel g stdin stdout = Returned g' rest out →
  ∃ n out',
    play_steps g n g'
    ∧ is_terminal g' = Ok true
    ∧ out = out'
            ++ [Line (if decide (n = 0%nat) then msg_white_wins
                      else if decide (current_player g' = WHITE)
                           then msg_black_wins else msg_white_wins)].
Proof. apply play_returns. Qed.

(** Property X21. From a game state, with one round allowed per stone,
    [play] ends: it returns or it stops at the end of the input with
    [EOFError]. No search runs out of its bound and no subscript
    raises. *)
Theorem play_fails_only_at_eof rounds fuel g stdin stdout e out :
  wf_game g → (5 <= fuel)%nat → stone_count g < Z.of_nat rounds →
  play int split rounds fuel g stdin stdout = Failed e out →
  e = EOFError.
Proof.
  intros Hwf Hfuel Hrounds Hplay. unfold play in Hplay.
  destruct (play_loop int split rounds fuel g None stdin stdout)
    as [[g1 last] i o|e1 o1] eqn:Hloop; [done|]. simplify_eq.
  by eapply play_loop_fails_only_at_eof.
Qed.

(** Property X22. When the program runs to its end, the final position
    is a reachable terminal state and the last line printed names as
    winner the player who is not to move there, who made the last
    move. *)
Theorem main_ends_with_the_winner rounds fuel stdin g' rest out :
  (5 <= fuel)%nat →
  main int split rounds fuel stdin = Returned g' rest out →
  reachable g'
  ∧ is_terminal g' = Ok true
  ∧ ∃ out', out = out'
                  ++ [Line (if decide (current_player g' = WHITE)
                            then msg_black_wins else msg_white_wins)].
Proof.
  intros Hfuel Hmain. unfold main in Hmain.
  destruct (construct int None None stdin []) as [g i o|] eqn:Hnew; [|done].
  apply construct_from_user in Hnew as (Hreach & _ & Hopen);
    [|by left].
  apply play_returns in Hmain
    as (n & out' & Hsteps & Hend & ->); [|by apply reachable_wf|done].
  split; [by eapply reachable_play_steps|]. split; [done|].
  exists out'. rewrite decide_False; [done|]. intros ->.
  apply play_steps_zero in Hsteps as ->. congruence.
Qed.

Lemma get_grid_size_from_user_fails_bounded (n : nat) stdin stdout e out :
  (length stdin <= n)%nat →
  get_grid_size_from_user int stdin stdout = Failed e out → e = EOFError.
Proof.
  revert stdin stdout. induction n as [|n IH]; intros stdin stdout Hlen Hret.
  { destruct stdin; [by injection Hret as <- _|simpl in Hlen; lia]. }
  destruct stdin as [|line1 stdin1]; [by injection Hret as <- _|].
  simpl in Hlen, Hret.
  destruct (int line1); [|eapply IH; [|done]; lia].
  destruct stdin1 as [|line2 stdin2]; [by injection Hret as <- _|].
  simpl in Hlen.
  destruct (int line2); [|eapply IH; [|done]; lia].
  case_decide; [done|]. eapply IH; [|done]. lia.
Qed.

(** Property X23. On every input the program stops: given enough rounds
    it returns or ends with [EOFError] at the end of the input. *)
Theorem main_stops fuel stdin :
  (5 <= fuel)%nat →
  ∃ enough, ∀ rounds e out,
    (enough <= rounds)%nat →
    main int split rounds fuel stdin = Failed e out → e = EOFError.
Proof.
  intros Hfuel. unfold main.
  destruct (construct int None None stdin []) as [g i o|e' o'] eqn:Hnew.
  - exists (S (Z.to_nat (stone_count g))). intros rounds e out Hrounds Hplay.
    apply construct_from_user in Hnew as (Hreach%reachable_wf & _);
      [|by left].
    unfold play in Hplay.
    destruct (play_loop int split rounds fuel g None i o)
      as [[g1 last] i1 o1|e1 o1] eqn:Hloop; [done|]. simplify_eq.
    eapply play_loop_fails_only_at_eof; [done..| |done]. lia.
  - exists 0%nat. intros rounds e out _ [= <- _].
    unfold construct in Hnew.
    destruct (get_grid_size_from_user int stdin []) as [[r c] i o|e1 o1] eqn:Hsize;
      [done|]. simplify_eq.
    by eapply (get_grid_size_from_user_fails_bounded (length stdin)).
Qed.

End ConsoleFacts.

(** ** Sample runs on the console *)

Lemma get_grid_size_from_user_post_witness :
  1 < 2 ∧ 1 < 3
  ∧ ∃ skipped line1 line2,
      ["x"; "1"; "1"; "2"; "3"]%string = skipped ++ line1 :: line2 :: []
      ∧ sample_int line1 = Some 2 ∧ sample_int line2 = Some 3.
Proof.
  eapply (get_grid_size_from_user_post sample_int
            ["x"; "1"; "1"; "2"; "3"]%string [] 2 3 []).
  reflexivity.
Defined.

Lemma construct_from_user_reachable_witness :
  reachable (new_game 2 2) ∧ current_player (new_game 2 2) = BLACK
  ∧ is_terminal (new_game 2 2) = Ok false.
Proof.
  eapply (construct_from_user_reachable sample_int None None
            ["2"; "2"]%string [] (new_game 2 2) []).
  - by left.
  - reflexivity.
Defined.


Lemma get_manual_move_stuck_witness :
  ∃ out, get_manual_move sample_int sample_split (new_game 1 1)
           ["0 0 0 1"]%string [] = Failed EOFError out.
Proof.
  apply (get_manual_move_stuck sample_int sample_split (new_game 1 1)).
  reflexivity.
Defined.

Lemma play_announces_last_mover_witness :
  ∃ g' rest out,
    play sample_int sample_split 4 5 (new_game 2 2) ["0 1 1 1"]%string []
    = Returned g' rest out
    ∧ ∃ n out',
        play_steps (new_game 2 2) n g'
        ∧ is_terminal g' = Ok true
        ∧ out = out'
                ++ [Line (if decide (n = 0%nat) then msg_white_wins
                          else if decide (current_player g' = WHITE)
                               then msg_black_wins else msg_white_wins)].
Proof.
  eexists _, _, _. split; [vm_compute; reflexivity|].
  eapply (play_announces_last_mover sample_int sample_split 4 5 (new_game 2 2)
            ["0 1 1 1"]%string []).
  - apply (bool_decide_unpack _). vm_compute. exact I.
  - lia.
  - vm_compute. reflexivity.
Defined.

Lemma play_fails_only_at_eof_witness :
  ∃ e out,
    play sample_int sample_split 5 5 (new_game 2 2) ["1 1 1 1"]%string []
    = Failed e out
    ∧ e = EOFError.
Proof.
  eexists _, _. split; [vm_compute; reflexivity|].
  eapply (play_fails_only_at_eof sample_int sample_split 5 5 (new_game 2 2)
            ["1 1 1 1"]%string []).
  - apply (bool_decide_unpack _). vm_compute. exact I.
  - lia.
  - vm_compute. reflexivity.
  - vm_compute. reflexivity.
Defined.

Lemma main_ends_with_the_winner_witness :
  ∃ g' rest out,
    main sample_int sample_split 4 5 ["2"; "2"; "0 1 1 1"]%string
    = Returned g' rest out
    ∧ reachable g'
    ∧ is_terminal g' = Ok true
    ∧ ∃ out', out = out'
                    ++ [Line (if decide (current_player g' = WHITE)
                              then msg_black_wins else msg_white_wins)].
Proof.
  eexists _, _, _. split; [vm_compute; reflexivity|].
  eapply (main_ends_with_the_winner sample_int sample_split 4 5
            ["2"; "2"; "0 1 1 1"]%string).
  - lia.
  - vm_compute. reflexivity.
Defined.

Lemma main_stops_witness :
  ∃ enough, ∀ rounds e out,
    (enough <= rounds)%nat →
    main sample_int sample_split rounds 5 ["2"; "2"]%string = Failed e out →
    e = EOFError.
Proof. apply (main_stops sample_int sample_split 5 ["2"; "2"]%string). lia. Defined.
